(** * bs-modal: a shallow embedding of [src/bs-modal.ts]

    The component is a custom element with two boolean flags, a small
    amount of focus bookkeeping, and two promise chains hanging off Web
    Animations.  The embedding keeps the code's own structure:

    - the element's fields and the part of the page it touches form one
      record, [World], threaded through a state monad [M];
    - promises live in a store indexed by allocation order, with the
      reaction lists and the microtask queue of ECMAScript;
    - the closures of the source are defunctionalised into [Callback];
    - the browser is a labelled transition system: one label per task
      the event loop can run (a method call, a DOM event, an animation
      frame, an animation reaching its end), each followed by a
      microtask checkpoint.

    What the browser does is modelled after the ECMAScript, HTML and Web
    Animations standards, under these assumptions:

    - the element is connected and rendered, so that [#container]
      exists, and [anim-msec] holds a duration [Element.animate]
      accepts;
    - events are dispatched to a trace: listeners are client code, not
      part of the component, and do not call back into it;
    - [focus()] is called on focusable elements and moves the focus; the
      [focusin] it raises is not fed back to [_focusinHandler], which
      would ignore it (the target is the element itself, or [isOpen] is
      false when [hide]'s continuation runs);
    - an animation reaching its end and the reactions this triggers form
      one task: nothing runs between the resolution of [finished] and
      the continuation chained on it.

    [connectedCallback], [disconnectedCallback] and [render] only wire
    the handlers and the markup.  They do not act on the page state
    above, and are modelled apart from it, on the listeners of the
    document, after the event loop. *)

From stdpp Require Import base list strings.
From Stdlib Require Import ZArith NArith Lia.

Local Open Scope string_scope.
Local Open Scope list_scope.

(** ** Data *)

(** The elements the component can tell apart: itself, the animated
    [#container] of its shadow tree, its light-DOM descendants, and the
    rest of the document. *)
Inductive Element :=
  | Host
  | Container
  | Slotted (n : nat)
  | Elsewhere (n : nat).

(** [this.contains(e)]: inclusive, and blind to the shadow tree. *)
Definition contains (e : Element) : bool :=
  match e with
  | Host | Slotted _ => true
  | Container | Elsewhere _ => false
  end.

(** The two keyframe sets: opacity 0 to 1 with ease-out, and back with
    ease-in. *)
Inductive Keyframes := Entrance | Exit.

Inductive PlayState := Running | Finished | Idle.

#[global] Instance Element_eq_dec : EqDecision Element.
Proof. solve_decision. Defined.

#[global] Instance Keyframes_eq_dec : EqDecision Keyframes.
Proof. solve_decision. Defined.

#[global] Instance PlayState_eq_dec : EqDecision PlayState.
Proof. solve_decision. Defined.

(** An [Animation] object.  [finished] is the identifier of the promise
    read by [anim.finished] when the animation was created.  [duration]
    ranges over the values [Element.animate] accepts. *)
Record Animation := mkAnimation {
  target : Element;
  keyframes : Keyframes;
  duration : N;
  playState : PlayState;
  finished : nat
}.

Inductive Value :=
  | VUndefined
  | VAnimation (a : nat)
  | VAbortError.

(** The four closures of the source, by their captured variables. *)
Inductive Callback :=
  | CbResolve (p : nat) (a : nat)   (* () => resolve(anim) *)
  | CbNoop                          (* () => {} *)
  | CbShown                         (* show's continuation *)
  | CbHidden.                       (* hide's continuation *)

Record Reaction := mkReaction {
  onFulfilled : option Callback;
  onRejected : option Callback;
  derived : nat
}.

Inductive Settlement :=
  | Pending
  | Fulfilled (v : Value)
  | Rejected (e : Value).

Record Promise := mkPromise {
  settlement : Settlement;
  reactions : list Reaction;
  handled : bool
}.

(** A promise reaction job: the handler (absent for a pass-through), on
    which side it was registered, its argument and the promise derived
    from it. *)
Record Job := mkJob {
  handler : option Callback;
  rejecting : bool;
  argument : Value;
  capability : nat
}.

Record CustomEvent := mkEvent {
  type : string;
  bubbles : bool;
  cancelable : bool
}.

(** The frame callback of [show]. *)
Inductive FrameCallback := FrameFocus.

(** What an observer of the page can see, in order. *)
Inductive Obs :=
  | ObsDispatch (ev : CustomEvent)
  | ObsAnimate (a : nat) (k : Keyframes)
  | ObsCancel (a : nat)
  | ObsCallback (cb : Callback) (arg : Value).

Record World := mkWorld {
  isOpen : bool;
  isClosed : bool;
  prevFocusElement : option Element;
  backdrop : option string;
  keyboard : option string;
  animMsec : N;
  scrollTop : Z;
  classList : list string;          (* document.body.classList *)
  activeElement : option Element;   (* document.activeElement *)
  animations : list Animation;
  promises : list Promise;
  microtasks : list Job;
  frameRequests : list FrameCallback;
  trace : list Obs
}.

(** The element as constructed, in a page with nothing focused. *)
Definition initial : World :=
  {| isOpen := false; isClosed := true; prevFocusElement := None;
     backdrop := Some "true"; keyboard := Some "true"; animMsec := 300%N;
     scrollTop := 0%Z; classList := []; activeElement := None;
     animations := []; promises := []; microtasks := [];
     frameRequests := []; trace := [] |}.

(** ** Field updates *)

Definition set_isOpen (b : bool) (w : World) : World :=
  mkWorld b (isClosed w) (prevFocusElement w) (backdrop w) (keyboard w)
    (animMsec w) (scrollTop w) (classList w) (activeElement w)
    (animations w) (promises w) (microtasks w) (frameRequests w) (trace w).

Definition set_isClosed (b : bool) (w : World) : World :=
  mkWorld (isOpen w) b (prevFocusElement w) (backdrop w) (keyboard w)
    (animMsec w) (scrollTop w) (classList w) (activeElement w)
    (animations w) (promises w) (microtasks w) (frameRequests w) (trace w).

Definition set_prevFocusElement (e : option Element) (w : World) : World :=
  mkWorld (isOpen w) (isClosed w) e (backdrop w) (keyboard w)
    (animMsec w) (scrollTop w) (classList w) (activeElement w)
    (animations w) (promises w) (microtasks w) (frameRequests w) (trace w).

Definition set_backdrop (v : option string) (w : World) : World :=
  mkWorld (isOpen w) (isClosed w) (prevFocusElement w) v (keyboard w)
    (animMsec w) (scrollTop w) (classList w) (activeElement w)
    (animations w) (promises w) (microtasks w) (frameRequests w) (trace w).

Definition set_keyboard (v : option string) (w : World) : World :=
  mkWorld (isOpen w) (isClosed w) (prevFocusElement w) (backdrop w) v
    (animMsec w) (scrollTop w) (classList w) (activeElement w)
    (animations w) (promises w) (microtasks w) (frameRequests w) (trace w).

Definition set_animMsec (n : N) (w : World) : World :=
  mkWorld (isOpen w) (isClosed w) (prevFocusElement w) (backdrop w)
    (keyboard w) n (scrollTop w) (classList w) (activeElement w)
    (animations w) (promises w) (microtasks w) (frameRequests w) (trace w).

Definition set_scrollTop (z : Z) (w : World) : World :=
  mkWorld (isOpen w) (isClosed w) (prevFocusElement w) (backdrop w)
    (keyboard w) (animMsec w) z (classList w) (activeElement w)
    (animations w) (promises w) (microtasks w) (frameRequests w) (trace w).

Definition set_classList (l : list string) (w : World) : World :=
  mkWorld (isOpen w) (isClosed w) (prevFocusElement w) (backdrop w)
    (keyboard w) (animMsec w) (scrollTop w) l (activeElement w)
    (animations w) (promises w) (microtasks w) (frameRequests w) (trace w).

Definition set_activeElement (e : option Element) (w : World) : World :=
  mkWorld (isOpen w) (isClosed w) (prevFocusElement w) (backdrop w)
    (keyboard w) (animMsec w) (scrollTop w) (classList w) e
    (animations w) (promises w) (microtasks w) (frameRequests w) (trace w).

Definition set_animations (l : list Animation) (w : World) : World :=
  mkWorld (isOpen w) (isClosed w) (prevFocusElement w) (backdrop w)
    (keyboard w) (animMsec w) (scrollTop w) (classList w) (activeElement w)
    l (promises w) (microtasks w) (frameRequests w) (trace w).

Definition set_promises (l : list Promise) (w : World) : World :=
  mkWorld (isOpen w) (isClosed w) (prevFocusElement w) (backdrop w)
    (keyboard w) (animMsec w) (scrollTop w) (classList w) (activeElement w)
    (animations w) l (microtasks w) (frameRequests w) (trace w).

Definition set_microtasks (l : list Job) (w : World) : World :=
  mkWorld (isOpen w) (isClosed w) (prevFocusElement w) (backdrop w)
    (keyboard w) (animMsec w) (scrollTop w) (classList w) (activeElement w)
    (animations w) (promises w) l (frameRequests w) (trace w).

Definition set_frameRequests (l : list FrameCallback) (w : World) : World :=
  mkWorld (isOpen w) (isClosed w) (prevFocusElement w) (backdrop w)
    (keyboard w) (animMsec w) (scrollTop w) (classList w) (activeElement w)
    (animations w) (promises w) (microtasks w) l (trace w).

Definition set_trace (l : list Obs) (w : World) : World :=
  mkWorld (isOpen w) (isClosed w) (prevFocusElement w) (backdrop w)
    (keyboard w) (animMsec w) (scrollTop w) (classList w) (activeElement w)
    (animations w) (promises w) (microtasks w) (frameRequests w) l.

(** ** The state monad of the page *)

Definition M (A : Type) : Type := World -> A * World.

Definition ret {A} (a : A) : M A := fun w => (a, w).

Definition bind {A B} (m : M A) (k : A -> M B) : M B :=
  fun w => let (a, w') := m w in k a w'.

Definition modify (f : World -> World) : M unit := fun w => (tt, f w).

Definition gets {A} (f : World -> A) : M A := fun w => (f w, w).

Declare Scope js_scope.
Delimit Scope js_scope with js.
Notation "x <- m ;; k" := (bind m (fun x => k))
  (at level 100, m at next level, k at level 200, right associativity,
   only parsing) : js_scope.
Notation "m ;; k" := (bind m (fun _ => k))
  (at level 100, k at level 200, right associativity, only parsing)
  : js_scope.

Local Open Scope js_scope.

Definition exec {A} (m : M A) (w : World) : World := snd (m w).
Definition result {A} (m : M A) (w : World) : A := fst (m w).

Definition observe (o : Obs) : M unit :=
  modify (fun w => set_trace (trace w ++ [o]) w).

(** ** Promises (ECMAScript, section 27.2) *)

Definition pendingPromise : Promise := mkPromise Pending [] false.

(** Allocation: a promise's identifier is its position in the store. *)
Definition allocPromise : M nat :=
  fun w => (length (promises w),
            set_promises (promises w ++ [pendingPromise]) w).

Definition enqueue (js : list Job) : M unit :=
  modify (fun w => set_microtasks (microtasks w ++ js) w).

Definition fulfilJob (v : Value) (r : Reaction) : Job :=
  mkJob (onFulfilled r) false v (derived r).

Definition rejectJob (e : Value) (r : Reaction) : Job :=
  mkJob (onRejected r) true e (derived r).

(** Calling the [resolve] function of promise [p] with a value that is
    not a thenable: a settled promise ignores it, a pending one is
    fulfilled and its reactions are queued. *)
Definition resolvePromise (p : nat) (v : Value) : M unit :=
  fun w =>
    match promises w !! p with
    | Some pr =>
        match settlement pr with
        | Pending =>
            (tt, set_microtasks (microtasks w ++ map (fulfilJob v) (reactions pr))
                   (set_promises
                      (<[p := mkPromise (Fulfilled v) [] (handled pr)]> (promises w)) w))
        | _ => (tt, w)
        end
    | None => (tt, w)
    end.

Definition rejectPromise (p : nat) (e : Value) : M unit :=
  fun w =>
    match promises w !! p with
    | Some pr =>
        match settlement pr with
        | Pending =>
            (tt, set_microtasks (microtasks w ++ map (rejectJob e) (reactions pr))
                   (set_promises
                      (<[p := mkPromise (Rejected e) [] (handled pr)]> (promises w)) w))
        | _ => (tt, w)
        end
    | None => (tt, w)
    end.

Definition markHandled (p : nat) : M unit :=
  fun w =>
    match promises w !! p with
    | Some pr =>
        (tt, set_promises
               (<[p := mkPromise (settlement pr) (reactions pr) true]> (promises w)) w)
    | None => (tt, w)
    end.

(** [p.then(onF, onR)]: the derived promise is allocated first; the
    reaction is stored while [p] is pending and queued at once when it
    is settled.  Either way [p] counts as handled. *)
Definition then_ (p : nat) (onF onR : option Callback) : M nat :=
  d <- allocPromise ;;
  (fun w =>
     match promises w !! p with
     | Some pr =>
         match settlement pr with
         | Pending =>
             (tt, set_promises
                    (<[p := mkPromise Pending
                              (reactions pr ++ [mkReaction onF onR d]) true]>
                       (promises w)) w)
         | Fulfilled v =>
             (enqueue [mkJob onF false v d] ;; markHandled p) w
         | Rejected e =>
             (enqueue [mkJob onR true e d] ;; markHandled p) w
         end
     | None => (tt, w)
     end) ;;
  ret d.

Definition catch_ (p : nat) (onR : Callback) : M nat :=
  then_ p None (Some onR).

(** [new Promise(executor)]: the executor runs synchronously and
    receives the promise's [resolve] function, here its identifier. *)
Definition newPromise (executor : nat -> M unit) : M nat :=
  p <- allocPromise ;;
  executor p ;;
  ret p.

(** ** Web Animations *)

(** [ele.animate(keyframes, {delay: 0, easing, duration})]: a new
    running animation with a fresh pending [finished] promise. *)
Definition animate (ele : Element) (k : Keyframes) (msec : N) : M nat :=
  fin <- allocPromise ;;
  a <- gets (fun w => length (animations w)) ;;
  modify (fun w =>
            set_animations
              (animations w ++ [mkAnimation ele k msec Running fin]) w) ;;
  observe (ObsAnimate a k) ;;
  ret a.

(** [ele.getAnimations()]: the animations of [ele] still in play.  With
    the default fill mode a finished animation is no longer relevant,
    and a cancelled one is idle. *)
Definition isRelevant (ele : Element) (an : Animation) : bool :=
  bool_decide (target an = ele) && bool_decide (playState an = Running).

Fixpoint relevantFrom (ele : Element) (i : nat) (l : list Animation) : list nat :=
  match l with
  | [] => []
  | an :: l' =>
      if isRelevant ele an then i :: relevantFrom ele (S i) l'
      else relevantFrom ele (S i) l'
  end.

Definition getAnimations (ele : Element) : M (list nat) :=
  gets (fun w => relevantFrom ele 0 (animations w)).

Definition setPlayState (a : nat) (st : PlayState) : M unit :=
  fun w =>
    match animations w !! a with
    | Some an =>
        (tt, set_animations
               (<[a := mkAnimation (target an) (keyframes an) (duration an)
                         st (finished an)]> (animations w)) w)
    | None => (tt, w)
    end.

(** [anim.cancel()]: unless the animation is idle, its [finished]
    promise is rejected with an AbortError and marked as handled; the
    animation becomes idle.  The fresh promise that then replaces
    [anim.finished] is never read by the module and is left out. *)
Definition cancel (a : nat) : M unit :=
  fun w =>
    match animations w !! a with
    | Some an =>
        match playState an with
        | Idle => (tt, w)
        | _ =>
            (rejectPromise (finished an) VAbortError ;;
             markHandled (finished an) ;;
             setPlayState a Idle ;;
             observe (ObsCancel a)) w
        end
    | None => (tt, w)
    end.

Fixpoint forEach {A} (f : A -> M unit) (l : list A) : M unit :=
  match l with
  | [] => ret tt
  | x :: l' => f x ;; forEach f l'
  end.

(** ** The free functions of the module *)

(** [tick(cb)]: [requestAnimationFrame(cb)], returning the handle. *)
Definition tick (cb : FrameCallback) : M nat :=
  h <- gets (fun w => length (frameRequests w)) ;;
  modify (fun w => set_frameRequests (frameRequests w ++ [cb]) w) ;;
  ret h.

Definition cancelAnims (ele : Element) : M unit :=
  anims <- getAnimations ele ;;
  forEach cancel anims.

Definition showAnim (ele : Element) (msec : N) : M nat :=
  anim <- animate ele Entrance msec ;;
  newPromise (fun resolve =>
    fin <- gets (fun w => default 0 (finished <$> animations w !! anim)) ;;
    t <- then_ fin (Some (CbResolve resolve anim)) None ;;
    _ <- catch_ t CbNoop ;;
    ret tt).

Definition hideAnim (ele : Element) (msec : N) : M nat :=
  anim <- animate ele Exit msec ;;
  newPromise (fun resolve =>
    fin <- gets (fun w => default 0 (finished <$> animations w !! anim)) ;;
    t <- then_ fin (Some (CbResolve resolve anim)) None ;;
    _ <- catch_ t CbNoop ;;
    ret tt).

Definition getFocusElement : M (option Element) :=
  gets activeElement.

Definition createEvent (eventName : string) : CustomEvent :=
  mkEvent eventName true true.

(** ** The element *)

(** [this.dispatchEvent(ev)]: recorded in the trace. *)
Definition dispatchEvent (ev : CustomEvent) : M unit :=
  observe (ObsDispatch ev).

(** [e.focus({preventScroll: true})] on a focusable element. *)
Definition focus (e : Element) : M unit :=
  modify (set_activeElement (Some e)).

(** [document.body.classList]: an ordered set of tokens. *)
Definition classList_add (c : string) : M unit :=
  modify (fun w =>
            if bool_decide (c ∈ classList w) then w
            else set_classList (classList w ++ [c]) w).

Definition classList_remove (c : string) : M unit :=
  modify (fun w =>
            set_classList (filter (fun x => x ≠ c) (classList w)) w).

Definition show : M bool :=
  o <- gets isOpen ;;
  if o then ret false
  else
    f <- getFocusElement ;;
    modify (set_prevFocusElement f) ;;
    modify (set_isOpen true) ;;
    modify (set_isClosed false) ;;
    classList_add "modal-open" ;;
    cancelAnims Container ;;
    dispatchEvent (createEvent "show") ;;
    msec <- gets animMsec ;;
    p <- showAnim Container msec ;;
    _ <- then_ p (Some CbShown) None ;;
    _ <- tick FrameFocus ;;
    ret true.

Definition hide : M bool :=
  o <- gets isOpen ;;
  if negb o then ret false
  else
    classList_remove "modal-open" ;;
    modify (set_isOpen false) ;;
    cancelAnims Container ;;
    dispatchEvent (createEvent "hide") ;;
    msec <- gets animMsec ;;
    p <- hideAnim Container msec ;;
    _ <- then_ p (Some CbHidden) None ;;
    ret true.

Definition toggle : M bool :=
  o <- gets isOpen ;;
  if o then hide else show.

(** [_clickHandler]: [dismiss] is whether the click's target matches
    [[data-dismiss='modal']]. *)
Definition _clickHandler (dismiss : bool) : M unit :=
  if dismiss then (_ <- hide ;; ret tt) else ret tt.

Definition _clickBackdropHandler : M unit :=
  b <- gets backdrop ;;
  if bool_decide (b = Some "true") then (_ <- hide ;; ret tt) else ret tt.

Definition _keyHandler (key : string) : M unit :=
  k <- gets keyboard ;;
  if bool_decide (k = Some "true")
     && (bool_decide (key = "Escape") || bool_decide (key = "Esc"))
  then (_ <- hide ;; ret tt) else ret tt.

Definition _focusinHandler (tgt : option Element) : M unit :=
  o <- gets isOpen ;;
  match tgt with
  | Some e => if o && negb (contains e) then focus Host else ret tt
  | None => ret tt
  end.

(** The body of each closure. *)
Definition runCallback (cb : Callback) : M unit :=
  match cb with
  | CbResolve p a => resolvePromise p (VAnimation a)
  | CbNoop => ret tt
  | CbShown => dispatchEvent (createEvent "shown")
  | CbHidden =>
      modify (set_isClosed true) ;;
      prev <- gets prevFocusElement ;;
      match prev with
      | Some e => focus e
      | None => ret tt
      end ;;
      dispatchEvent (createEvent "hidden")
  end.

Definition runFrameCallback (cb : FrameCallback) : M unit :=
  match cb with
  | FrameFocus =>
      modify (set_scrollTop 0%Z) ;;
      focus Host
  end.

(** ** The event loop *)

(** One promise reaction job.  A pass-through settles the derived
    promise like its parent; a handler runs and, as none of the four
    closures throws or returns a value, fulfils it with [undefined]. *)
Definition runJob (j : Job) : M unit :=
  match handler j with
  | None =>
      if rejecting j then rejectPromise (capability j) (argument j)
      else resolvePromise (capability j) (argument j)
  | Some cb =>
      observe (ObsCallback cb (argument j)) ;;
      runCallback cb ;;
      resolvePromise (capability j) VUndefined
  end.

Fixpoint runMicrotasks (fuel : nat) (w : World) : World :=
  match fuel with
  | O => w
  | S fuel' =>
      match microtasks w with
      | [] => w
      | j :: q => runMicrotasks fuel' (exec (runJob j) (set_microtasks q w))
      end
  end.

(** Every job takes one entry off the queue and queues only reactions
    that were registered before, so the queued jobs plus the registered
    reactions bound the length of a checkpoint. *)
Definition registered (ps : list Promise) : nat :=
  sum_list (map (fun p => length (reactions p)) ps).

Definition budget (w : World) : nat :=
  length (microtasks w) + registered (promises w).

(** The microtask checkpoint at the end of a task. *)
Definition checkpoint (w : World) : World :=
  runMicrotasks (budget w) w.

(** What the event loop can run next. *)
Inductive Label :=
  | CallShow
  | CallHide
  | CallToggle
  | Click (dismiss : bool)
  | ClickBackdrop
  | KeyDown (key : string)
  | FocusIn (tgt : option Element)
  | SetBackdrop (v : option string)
  | SetKeyboard (v : option string)
  | SetAnimMsec (n : N)
  | AnimationFrame
  | AnimationFinish (a : nat).

(** A running animation reaches its end: it becomes finished and its
    [finished] promise is resolved with the animation. *)
Definition finish (a : nat) : M unit :=
  fun w =>
    match animations w !! a with
    | Some an =>
        match playState an with
        | Running =>
            (setPlayState a Finished ;;
             resolvePromise (finished an) (VAnimation a)) w
        | _ => (tt, w)
        end
    | None => (tt, w)
    end.

Definition runFrame : M unit :=
  cbs <- gets frameRequests ;;
  modify (set_frameRequests []) ;;
  forEach runFrameCallback cbs.

Definition task (l : Label) : M unit :=
  match l with
  | CallShow => _ <- show ;; ret tt
  | CallHide => _ <- hide ;; ret tt
  | CallToggle => _ <- toggle ;; ret tt
  | Click d => _clickHandler d
  | ClickBackdrop => _clickBackdropHandler
  | KeyDown k => _keyHandler k
  | FocusIn t =>
      modify (set_activeElement t) ;;
      _focusinHandler t
  | SetBackdrop v => modify (set_backdrop v)
  | SetKeyboard v => modify (set_keyboard v)
  | SetAnimMsec n => modify (set_animMsec n)
  | AnimationFrame => runFrame
  | AnimationFinish a => finish a
  end.

Definition step (l : Label) (w : World) : World :=
  checkpoint (exec (task l) w).

Definition run (ls : list Label) (w : World) : World :=
  fold_left (fun w l => step l w) ls w.

Inductive reachable : World -> Prop :=
  | reachable_initial : reachable initial
  | reachable_step l w : reachable w -> reachable (step l w).


(** ** Rendering *)



(** ** Attachment to the document *)

(** The two event targets the element listens on: itself
    ([this.shadowRoot.host]) and [this.ownerDocument]. *)
Inductive EventTarget := HostElement | OwnerDocument.

(** The three methods that are bound and registered. *)
Inductive Method := ClickMethod | KeyMethod | FocusinMethod.

(** A function object.  [method.bind(this)] makes a new one at every
    call, told apart here by a serial number; [Foreign] stands for the
    listeners of other code. *)
Inductive Fn :=
  | Bound (m : Method) (serial : nat)
  | Foreign (serial : nat).

Record Listener := mkListener {
  onTarget : EventTarget;
  eventType : string;
  callback : Fn;
  useCapture : bool
}.

#[global] Instance EventTarget_eq_dec : EqDecision EventTarget.
Proof. solve_decision. Defined.

#[global] Instance Method_eq_dec : EqDecision Method.
Proof. solve_decision. Defined.

#[global] Instance Fn_eq_dec : EqDecision Fn.
Proof. solve_decision. Defined.

#[global] Instance Listener_eq_dec : EqDecision Listener.
Proof. solve_decision. Defined.

(** The part of the page the two lifecycle callbacks touch.  An entry
    of [_unsubFuncs] is the closure that removes the listener it
    names.  The calls to the base class ([super.connectedCallback()],
    [super.disconnectedCallback()]) belong to the library and are left
    out. *)
Record Wiring := mkWiring {
  tabindex : option string;
  listeners : list Listener;
  _unsubFuncs : list Listener;
  nextFn : nat
}.

(** [target.addEventListener(type, fn, capture)]: a listener already
    registered with the same type, function and capture flag is not
    added again. *)
Definition addEventListener (l : Listener) (ls : list Listener) : list Listener :=
  if bool_decide (l ∈ ls) then ls else ls ++ [l].

Definition removeEventListener (l : Listener) (ls : list Listener) : list Listener :=
  filter (fun x => x <> l) ls.

Definition connectedCallback (h : Wiring) : Wiring :=
  let clickHnd := Bound ClickMethod (nextFn h) in
  let keydownHnd := Bound KeyMethod (S (nextFn h)) in
  let focusinHnd := Bound FocusinMethod (S (S (nextFn h))) in
  let onClick := mkListener HostElement "click" clickHnd true in
  let onKeydown := mkListener OwnerDocument "keydown" keydownHnd true in
  let onFocusin := mkListener OwnerDocument "focusin" focusinHnd true in
  mkWiring (Some "-1")
    (addEventListener onFocusin
       (addEventListener onKeydown
          (addEventListener onClick (listeners h))))
    (_unsubFuncs h ++ [onClick; onKeydown; onFocusin])
    (S (S (S (nextFn h)))).

(** [this._unsubFuncs.map((func) => func())]: every stored closure
    runs, in order; the array itself is left as it is. *)
Definition disconnectedCallback (h : Wiring) : Wiring :=
  mkWiring (tabindex h)
    (fold_left (fun ls u => removeEventListener u ls) (_unsubFuncs h) (listeners h))
    (_unsubFuncs h)
    (nextFn h).

(** The element as constructed, on a page where other code has
    registered [others]. *)
Definition unwired (others : list Listener) : Wiring :=
  mkWiring None others [] 0.

Inductive Lifecycle := Connect | Disconnect.

Definition lifecycle (c : Lifecycle) (h : Wiring) : Wiring :=
  match c with
  | Connect => connectedCallback h
  | Disconnect => disconnectedCallback h
  end.

Definition lifecycles (cs : list Lifecycle) (h : Wiring) : Wiring :=
  fold_left (fun h c => lifecycle c h) cs h.

(** The methods an event of type [ty] on [tgt] invokes, in order. *)
Definition invoked (tgt : EventTarget) (ty : string) (h : Wiring) : list Method :=
  omap (fun l =>
          match callback l with
          | Bound m _ =>
              if bool_decide (onTarget l = tgt) && bool_decide (eventType l = ty)
              then Some m else None
          | Foreign _ => None
          end) (listeners h).
(** * Vocabulary of the statements *)

(** ** Views of the page *)

(** What promises and animations never write: the element's own fields,
    the body's class list, the focus and the frame queue. *)
Definition fields (w : World) :=
  (isOpen w, isClosed w, prevFocusElement w, backdrop w, keyboard w,
   animMsec w, scrollTop w, classList w, activeElement w, frameRequests w).

(** What settling a promise never writes. *)
Definition stage (w : World) := (animations w, trace w).

(** An animation once cancelled. *)
Definition idle (an : Animation) : Animation :=
  mkAnimation (target an) (keyframes an) (duration an) Idle (finished an).

Definition isCancel (o : Obs) : Prop := exists a, o = ObsCancel a.

(** ** The promise chain of one animation

    [showAnim] and [hideAnim] followed by [.then(continuation)] allocate
    five promises in a row: the animation's [finished], the promise they
    return, the two derived by [.then] and [.catch], and the one derived
    by the caller's [.then]. *)

Definition continuation (k : Keyframes) : Callback :=
  match k with
  | Entrance => CbShown
  | Exit => CbHidden
  end.

Definition runningBlock (f a : nat) (cb : Callback) : list Promise :=
  [ mkPromise Pending [mkReaction (Some (CbResolve (f + 1) a)) None (f + 2)] true;
    mkPromise Pending [mkReaction (Some cb) None (f + 4)] true;
    mkPromise Pending [mkReaction None (Some CbNoop) (f + 3)] true;
    mkPromise Pending [] false;
    mkPromise Pending [] false ].

(** After a cancellation: the returned promise is still pending. *)
Definition idleBlock (f : nat) (cb : Callback) : list Promise :=
  [ mkPromise (Rejected VAbortError) [] true;
    mkPromise Pending [mkReaction (Some cb) None (f + 4)] true;
    mkPromise (Rejected VAbortError) [] true;
    mkPromise (Fulfilled VUndefined) [] false;
    mkPromise Pending [] false ].

(** After the animation has reached its end. *)
Definition finishedBlock (a : nat) : list Promise :=
  [ mkPromise (Fulfilled (VAnimation a)) [] true;
    mkPromise (Fulfilled (VAnimation a)) [] true;
    mkPromise (Fulfilled VUndefined) [] true;
    mkPromise (Fulfilled VUndefined) [] false;
    mkPromise (Fulfilled VUndefined) [] false ].

Definition block (f a : nat) (an : Animation) : list Promise :=
  match playState an with
  | Running => runningBlock f a (continuation (keyframes an))
  | Idle => idleBlock f (continuation (keyframes an))
  | Finished => finishedBlock a
  end.

(** The store as a function of the animations created so far. *)
Fixpoint store (i : nat) (l : list Animation) : list Promise :=
  match l with
  | [] => []
  | an :: l' => block (5 * i) i an ++ store (S i) l'
  end.

(** The page once [name] has been dispatched and an animation with
    keyframes [k] and its chain have been set up. *)
Definition started (k : Keyframes) (name : string) (w : World) : World :=
  set_trace
    (trace w ++ [ObsDispatch (createEvent name);
                 ObsAnimate (length (animations w)) k])
    (set_animations
       (animations w ++
          [mkAnimation Container k (animMsec w) Running (length (promises w))])
       (set_promises
          (promises w ++
             runningBlock (length (promises w)) (length (animations w))
               (continuation k))
          w)).

Definition ticked (w : World) : World :=
  set_frameRequests (frameRequests w ++ [FrameFocus]) w.

(** The writes of [show] and [hide] that come before [cancelAnims]. *)
Definition showPrologue (w : World) : World :=
  exec (classList_add "modal-open")
    (set_isClosed false
       (set_isOpen true (set_prevFocusElement (activeElement w) w))).

Definition hidePrologue (w : World) : World :=
  set_isOpen false (exec (classList_remove "modal-open") w).

(** ** Names and order of the lifecycle events *)

Definition startName (k : Keyframes) : string :=
  match k with
  | Entrance => "show"
  | Exit => "hide"
  end.

Definition endName (k : Keyframes) : string :=
  match k with
  | Entrance => "shown"
  | Exit => "hidden"
  end.

(** What must come right before an observation: an animation starts
    right after its [show] or [hide] event; a [shown] or [hidden] event
    comes right after the finish callback and the continuation of an
    animation of the matching kind that was started earlier. *)
Definition goodAt (pre : list Obs) (o : Obs) : Prop :=
  match o with
  | ObsAnimate a k =>
      exists pre', pre = pre' ++ [ObsDispatch (createEvent (startName k))]
  | ObsDispatch ev =>
      forall k, ev = createEvent (endName k) ->
        exists pre' a p,
          pre = pre' ++ [ObsCallback (CbResolve p a) (VAnimation a);
                         ObsCallback (continuation k) (VAnimation a)]
          /\ ObsAnimate a k ∈ pre'
  | _ => True
  end.

Definition ordered (t : list Obs) : Prop :=
  forall pre o post, t = pre ++ o :: post -> goodAt pre o.

(** ** The invariant of reachable pages *)

Definition quiet (l : list Animation) : Prop :=
  Forall (fun an => playState an <> Running) l.

Definition indexed (l : list Animation) : Prop :=
  forall a an, l !! a = Some an -> finished an = 5 * a /\ target an = Container.

(** Either the element is at rest, fully open or fully closed, or one
    animation is running, the last one created: the entrance while
    opening, the exit while closing.  In both cases the store is
    determined by the animations. *)
Inductive Phase (w : World) (olds : list Animation) : Prop :=
  | phase_rest :
      animations w = olds ->
      promises w = store 0 olds ->
      isClosed w = negb (isOpen w) ->
      Phase w olds
  | phase_moving k du :
      animations w
      = olds ++ [mkAnimation Container k du Running (length (store 0 olds))] ->
      promises w
      = store 0 olds ++
        runningBlock (length (store 0 olds)) (length olds) (continuation k) ->
      isOpen w = bool_decide (k = Entrance) ->
      isClosed w = false ->
      Phase w olds.

Record Inv (w : World) : Prop := mkInv {
  inv_queue : microtasks w = [];
  inv_phase : exists olds, quiet olds /\ indexed olds /\ Phase w olds;
  inv_started : forall a an, animations w !! a = Some an ->
      ObsAnimate a (keyframes an) ∈ trace w;
  inv_callbacks : forall cb a, ObsCallback cb (VAnimation a) ∈ trace w ->
      exists an, animations w !! a = Some an /\ playState an = Finished;
  inv_ordered : ordered (trace w)
}.

(** ** States and schedules used in the statements *)

(** The page after [show()] then [hide()]: the exit animation runs. *)
Definition closing : World := run [CallShow; CallHide] initial.

(** Tasks that neither call a method of the element nor dismiss it. *)
Definition passive (l : Label) : bool :=
  match l with
  | FocusIn _ | SetBackdrop _ | SetKeyboard _ | SetAnimMsec _
  | AnimationFrame | AnimationFinish _ | Click false => true
  | _ => false
  end.

Definition isFinish (l : Label) : bool :=
  match l with
  | AnimationFinish _ => true
  | _ => false
  end.

(** The part of the page such tasks cannot change. *)
Definition core (w : World) :=
  (animations w, promises w, microtasks w, trace w,
   isOpen w, isClosed w, prevFocusElement w).


(** The claim that the promise returned by [showAnim] is fulfilled in
    the checkpoint that follows a cancellation of its animation. *)
Definition fulfilledOnAbort (ele : Element) (msec : N) (w : World) : Prop :=
  let p := result (showAnim ele msec) w in
  let w2 := checkpoint (exec (cancel (length (animations w)))
                          (exec (showAnim ele msec) w)) in
  exists pr v, promises w2 !! p = Some pr /\ settlement pr = Fulfilled v.

(** What no promise reaction writes: the open flag, the two dismissal
    switches and the captured focus. *)
Definition gate (w : World) :=
  (isOpen w, backdrop w, keyboard w, prevFocusElement w).

(** ** Vocabulary of the further properties *)

#[global] Instance Value_eq_dec : EqDecision Value.
Proof. solve_decision. Defined.

#[global] Instance Callback_eq_dec : EqDecision Callback.
Proof. solve_decision. Defined.

#[global] Instance CustomEvent_eq_dec : EqDecision CustomEvent.
Proof. solve_decision. Defined.

#[global] Instance Obs_eq_dec : EqDecision Obs.
Proof. solve_decision. Defined.




(** The four events of the component. *)
Definition lifecycleEvent (ev : CustomEvent) : Prop :=
  bubbles ev = true /\ cancelable ev = true
  /\ type ev ∈ ["show"; "shown"; "hide"; "hidden"].

(** How one task changes a reachable page: not at all as far as the
    flags, the animations and the trace go; or an animation starts from
    rest; or it starts after cancelling the one that was running; or
    the running animation reaches its end. *)
Inductive Shape (w w' : World) : Prop :=
  | shape_same :
      core w' = core w -> Shape w w'
  | shape_started k du f :
      quiet (animations w) ->
      isOpen w = negb (bool_decide (k = Entrance)) ->
      isOpen w' = bool_decide (k = Entrance) ->
      isClosed w' = false ->
      animations w' = animations w ++ [mkAnimation Container k du Running f] ->
      trace w' = trace w ++ [ObsDispatch (createEvent (startName k));
                             ObsAnimate (length (animations w)) k] ->
      Shape w w'
  | shape_restarted olds k0 du0 f0 k du f :
      quiet olds ->
      animations w = olds ++ [mkAnimation Container k0 du0 Running f0] ->
      isOpen w = negb (bool_decide (k = Entrance)) ->
      isOpen w' = bool_decide (k = Entrance) ->
      isClosed w' = false ->
      animations w' = olds ++ [mkAnimation Container k0 du0 Idle f0;
                               mkAnimation Container k du Running f] ->
      trace w' = trace w ++ [ObsCancel (length olds);
                             ObsDispatch (createEvent (startName k));
                             ObsAnimate (length olds + 1) k;
                             ObsCallback CbNoop VAbortError] ->
      Shape w w'
  | shape_finished olds k du f p :
      quiet olds ->
      animations w = olds ++ [mkAnimation Container k du Running f] ->
      isOpen w' = isOpen w ->
      isClosed w' = negb (isOpen w) ->
      animations w' = olds ++ [mkAnimation Container k du Finished f] ->
      trace w' = trace w ++ [ObsCallback (CbResolve p (length olds))
                               (VAnimation (length olds));
                             ObsCallback (continuation k) (VAnimation (length olds));
                             ObsDispatch (createEvent (endName k))] ->
      Shape w w'.

(** A listener registered by the element itself. *)
Definition own (l : Listener) : bool :=
  match callback l with
  | Bound _ _ => true
  | Foreign _ => false
  end.

#[global] Instance Lifecycle_eq_dec : EqDecision Lifecycle.
Proof. solve_decision. Defined.

(** What holds of the wiring after any sequence of the two lifecycle
    callbacks, on a page where other code registered [others]: the
    foreign listeners are [others]; every listener of the element has
    its closure in [_unsubFuncs]; and the closures name bound functions
    made so far. *)
Definition attached (others : list Listener) (h : Wiring) : Prop :=
  filter (fun l => own l = false) (listeners h) = others
  /\ (forall l, l ∈ listeners h -> own l = true -> l ∈ _unsubFuncs h)
  /\ (forall l, l ∈ _unsubFuncs h ->
        exists m n, callback l = Bound m n /\ n < nextFn h).


(** A page with one listener of other code, and an element that was
    attached, detached and attached again. *)
Definition otherListeners : list Listener :=
  [mkListener OwnerDocument "keydown" (Foreign 0) false].

Definition moved : list Lifecycle := [Connect; Disconnect; Connect].
(** * Properties *)

(** ** The monad *)

Lemma bind_eq {A B} (m : M A) (k : A -> M B) (w : World) :
  bind m k w = k (result m w) (exec m w).
Proof. unfold bind, result, exec. destruct (m w); reflexivity. Qed.

Lemma exec_bind {A B} (m : M A) (k : A -> M B) (w : World) :
  exec (bind m k) w = exec (k (result m w)) (exec m w).
Proof. unfold exec at 1. rewrite bind_eq. reflexivity. Qed.

Lemma result_bind {A B} (m : M A) (k : A -> M B) (w : World) :
  result (bind m k) w = result (k (result m w)) (exec m w).
Proof. unfold result at 1. rewrite bind_eq. reflexivity. Qed.

Lemma exec_ret {A} (a : A) (w : World) : exec (ret a) w = w.
Proof. reflexivity. Qed.

Lemma result_ret {A} (a : A) (w : World) : result (ret a) w = a.
Proof. reflexivity. Qed.

Lemma result_gets {A} (f : World -> A) (w : World) : result (gets f) w = f w.
Proof. reflexivity. Qed.

Lemma exec_gets {A} (f : World -> A) (w : World) : exec (gets f) w = w.
Proof. reflexivity. Qed.

Lemma exec_modify (f : World -> World) (w : World) : exec (modify f) w = f w.
Proof. reflexivity. Qed.

Lemma exec_observe (o : Obs) (w : World) :
  exec (observe o) w = set_trace (trace w ++ [o]) w.
Proof. reflexivity. Qed.

Create Rewrite HintDb mon.
#[local] Hint Rewrite @result_gets @exec_gets exec_modify exec_observe
  @exec_ret @result_ret : mon.

Ltac mstep :=
  first [rewrite exec_bind | rewrite bind_eq]; autorewrite with mon.

Ltac msplit :=
  repeat first [rewrite exec_bind | rewrite exec_ret | progress cbv beta].

(** Unfolds the monad and the operations that do not inspect the store. *)
Ltac mred :=
  cbv beta iota zeta delta
    [exec result bind ret modify gets observe dispatchEvent focus enqueue
     getFocusElement classList_add classList_remove allocPromise tick
     fst snd].

(** ** The checkpoint always empties the queue *)

Lemma registered_app (l1 l2 : list Promise) :
  registered (l1 ++ l2) = registered l1 + registered l2.
Proof.
  unfold registered. rewrite map_app.
  induction (map _ l1) as [|x xs IH]; simpl; [reflexivity | lia].
Qed.

Lemma registered_insert (ps : list Promise) (p : nat) (pr pr' : Promise) :
  ps !! p = Some pr ->
  registered (<[p := pr']> ps) + length (reactions pr)
  = registered ps + length (reactions pr').
Proof.
  revert p. induction ps as [|x ps IH]; intros [|p] H; simpl in H; try discriminate.
  - injection H as ->. unfold registered. simpl. lia.
  - specialize (IH p H). unfold registered in *. simpl. lia.
Qed.

Lemma resolvePromise_budget (p : nat) (v : Value) (w : World) :
  budget (exec (resolvePromise p v) w) = budget w.
Proof.
  unfold exec, resolvePromise.
  destruct (promises w !! p) as [pr|] eqn:E; [|reflexivity].
  destruct (settlement pr); try reflexivity.
  unfold budget. simpl. rewrite length_app, length_map.
  pose proof (registered_insert _ _ _ (mkPromise (Fulfilled v) [] (handled pr)) E) as R.
  simpl in R. lia.
Qed.

Lemma rejectPromise_budget (p : nat) (e : Value) (w : World) :
  budget (exec (rejectPromise p e) w) = budget w.
Proof.
  unfold exec, rejectPromise.
  destruct (promises w !! p) as [pr|] eqn:E; [|reflexivity].
  destruct (settlement pr); try reflexivity.
  unfold budget. simpl. rewrite length_app, length_map.
  pose proof (registered_insert _ _ _ (mkPromise (Rejected e) [] (handled pr)) E) as R.
  simpl in R. lia.
Qed.

Lemma runCallback_budget (cb : Callback) (w : World) :
  budget (exec (runCallback cb) w) = budget w.
Proof.
  destruct cb; simpl; try reflexivity.
  - apply resolvePromise_budget.
  - mred. simpl. destruct (prevFocusElement w); reflexivity.
Qed.

Lemma runJob_budget (j : Job) (w : World) :
  budget (exec (runJob j) w) = budget w.
Proof.
  unfold runJob. destruct (handler j) as [cb|].
  - rewrite !exec_bind, resolvePromise_budget, runCallback_budget. reflexivity.
  - destruct (rejecting j); [apply rejectPromise_budget | apply resolvePromise_budget].
Qed.

Lemma runMicrotasks_empties (fuel : nat) (w : World) :
  budget w <= fuel -> microtasks (runMicrotasks fuel w) = [].
Proof.
  revert w. induction fuel as [|fuel IH]; intros w H; simpl.
  - unfold budget in H. destruct (microtasks w); [reflexivity | simpl in H; lia].
  - destruct (microtasks w) as [|j q] eqn:E; [exact E|].
    apply IH. rewrite runJob_budget. unfold budget in *. rewrite E in H. simpl in *. lia.
Qed.

Lemma checkpoint_empties (w : World) : microtasks (checkpoint w) = [].
Proof. apply runMicrotasks_empties. lia. Qed.

(** More fuel than a checkpoint needs changes nothing. *)
Lemma runMicrotasks_more (n m : nat) (w : World) :
  microtasks (runMicrotasks n w) = [] -> n <= m ->
  runMicrotasks m w = runMicrotasks n w.
Proof.
  revert m w. induction n as [|n IH]; intros m w H Hle; simpl in *.
  - destruct m; simpl; [reflexivity | rewrite H; reflexivity].
  - destruct m as [|m]; [lia|]. simpl.
    destruct (microtasks w) as [|j q]; [reflexivity|].
    apply IH; [exact H | lia].
Qed.

Lemma checkpoint_fuel (n : nat) (w : World) :
  microtasks (runMicrotasks n w) = [] ->
  checkpoint w = runMicrotasks n w.
Proof.
  intros H. unfold checkpoint.
  destruct (Nat.le_gt_cases n (budget w)) as [Hle|Hgt].
  - apply runMicrotasks_more; assumption.
  - symmetry. apply runMicrotasks_more; [apply runMicrotasks_empties; lia | lia].
Qed.

Lemma checkpoint_idle (w : World) : microtasks w = [] -> checkpoint w = w.
Proof.
  intros H. rewrite (checkpoint_fuel 0); [reflexivity | exact H].
Qed.

Lemma resolvePromise_fields p v w :
  fields (exec (resolvePromise p v) w) = fields w.
Proof.
  unfold exec, resolvePromise. destruct (promises w !! p) as [pr|]; [|reflexivity].
  destruct (settlement pr); reflexivity.
Qed.

Lemma rejectPromise_fields p e w :
  fields (exec (rejectPromise p e) w) = fields w.
Proof.
  unfold exec, rejectPromise. destruct (promises w !! p) as [pr|]; [|reflexivity].
  destruct (settlement pr); reflexivity.
Qed.

Lemma markHandled_fields p w : fields (exec (markHandled p) w) = fields w.
Proof.
  unfold exec, markHandled. destruct (promises w !! p); reflexivity.
Qed.

Lemma then_fields p onF onR w : fields (exec (then_ p onF onR) w) = fields w.
Proof.
  unfold then_. msplit.
  set (w1 := exec allocPromise w).
  assert (H1 : fields w1 = fields w) by reflexivity.
  rewrite <- H1. unfold exec at 1.
  destruct (promises w1 !! p) as [pr|]; [|reflexivity].
  destruct (settlement pr); [reflexivity| |].
  - rewrite bind_eq. etransitivity; [apply markHandled_fields | reflexivity].
  - rewrite bind_eq. etransitivity; [apply markHandled_fields | reflexivity].
Qed.

Lemma setPlayState_fields a st w :
  fields (exec (setPlayState a st) w) = fields w.
Proof.
  unfold exec, setPlayState. destruct (animations w !! a); reflexivity.
Qed.

Lemma cancel_fields a w : fields (exec (cancel a) w) = fields w.
Proof.
  unfold cancel, exec at 1.
  destruct (animations w !! a) as [an|]; [|reflexivity].
  assert (H : fields (exec (rejectPromise (finished an) VAbortError ;;
                            markHandled (finished an) ;;
                            setPlayState a Idle ;;
                            observe (ObsCancel a))%js w) = fields w).
  { rewrite !exec_bind.
    change (fields (exec (observe ?o) ?x)) with (fields x).
    rewrite setPlayState_fields, markHandled_fields. apply rejectPromise_fields. }
  destruct (playState an); [exact H | exact H | reflexivity].
Qed.

Lemma forEach_cancel_fields l w :
  fields (exec (forEach cancel l) w) = fields w.
Proof.
  revert w. induction l as [|a l IH]; intros w; [reflexivity|].
  simpl. rewrite exec_bind, IH. apply cancel_fields.
Qed.

Lemma cancelAnims_fields ele w :
  fields (exec (cancelAnims ele) w) = fields w.
Proof.
  unfold cancelAnims. rewrite exec_bind. apply forEach_cancel_fields.
Qed.

Lemma animate_fields ele k msec w :
  fields (exec (animate ele k msec) w) = fields w.
Proof. reflexivity. Qed.

Lemma showAnim_fields ele msec w :
  fields (exec (showAnim ele msec) w) = fields w.
Proof.
  unfold showAnim, newPromise, catch_. msplit.
  rewrite !then_fields. reflexivity.
Qed.

Lemma hideAnim_fields ele msec w :
  fields (exec (hideAnim ele msec) w) = fields w.
Proof.
  unfold hideAnim, newPromise, catch_. msplit.
  rewrite !then_fields. reflexivity.
Qed.

Lemma rejectPromise_stage p e w : stage (exec (rejectPromise p e) w) = stage w.
Proof.
  unfold exec, rejectPromise. destruct (promises w !! p) as [pr|]; [|reflexivity].
  destruct (settlement pr); reflexivity.
Qed.

Lemma markHandled_stage p w : stage (exec (markHandled p) w) = stage w.
Proof.
  unfold exec, markHandled. destruct (promises w !! p); reflexivity.
Qed.

(** ** Cancelling, on any page *)

Lemma idle_idle an : idle (idle an) = idle an.
Proof. reflexivity. Qed.

Lemma idle_id an : playState an = Idle -> idle an = an.
Proof. destruct an; simpl; intros ->; reflexivity. Qed.

Lemma cancel_stage a w :
  exists cs, Forall isCancel cs /\
    stage (exec (cancel a) w)
    = (match animations w !! a with
       | Some an => <[a := idle an]> (animations w)
       | None => animations w
       end, trace w ++ cs).
Proof.
  unfold cancel, exec at 1.
  destruct (animations w !! a) as [an|] eqn:E.
  - assert (H : stage (exec (rejectPromise (finished an) VAbortError ;;
                             markHandled (finished an) ;;
                             setPlayState a Idle ;;
                             observe (ObsCancel a))%js w)
                = (<[a := idle an]> (animations w), trace w ++ [ObsCancel a])).
    { msplit.
      set (w2 := exec (markHandled _) _).
      assert (H2 : stage w2 = stage w).
      { unfold w2. rewrite markHandled_stage. apply rejectPromise_stage. }
      unfold stage in *. injection H2 as Ha Ht.
      unfold exec, observe, modify, setPlayState. rewrite Ha, E. simpl.
      rewrite Ht. reflexivity. }
    destruct (playState an) eqn:P.
    + exists [ObsCancel a]. split; [repeat constructor; eexists; reflexivity | exact H].
    + exists [ObsCancel a]. split; [repeat constructor; eexists; reflexivity | exact H].
    + exists []. split; [constructor|]. unfold stage. simpl.
      rewrite app_nil_r, (idle_id an P), list_insert_id; [reflexivity | exact E].
  - exists []. split; [constructor|]. unfold stage. simpl. rewrite app_nil_r. reflexivity.
Qed.

Lemma cancel_lookup a b w :
  animations (exec (cancel a) w) !! b
  = (fun an => if bool_decide (a = b) then idle an else an) <$> animations w !! b.
Proof.
  destruct (cancel_stage a w) as (cs & _ & H).
  unfold stage in H. injection H as H _. rewrite H.
  destruct (animations w !! a) as [an|] eqn:E.
  - destruct (decide (a = b)) as [->|Hne].
    + rewrite bool_decide_eq_true_2 by reflexivity.
      rewrite list_lookup_insert_eq by (eapply lookup_lt_Some; exact E).
      rewrite E. reflexivity.
    + rewrite bool_decide_eq_false_2 by exact Hne.
      rewrite list_lookup_insert_ne by exact Hne.
      destruct (animations w !! b); reflexivity.
  - destruct (decide (a = b)) as [->|Hne].
    + rewrite E. reflexivity.
    + rewrite bool_decide_eq_false_2 by exact Hne.
      destruct (animations w !! b); reflexivity.
Qed.

Lemma forEach_cancel_lookup l b w :
  animations (exec (forEach cancel l) w) !! b
  = (fun an => if bool_decide (b ∈ l) then idle an else an) <$> animations w !! b.
Proof.
  revert w. induction l as [|a l IH]; intros w.
  - simpl. rewrite exec_ret. destruct (animations w !! b); reflexivity.
  - simpl. rewrite exec_bind, IH, cancel_lookup.
    destruct (animations w !! b) as [an|]; [|reflexivity]. simpl. f_equal.
    destruct (decide (a = b)) as [->|Hne].
    + rewrite (bool_decide_eq_true_2 (b = b)) by reflexivity.
      rewrite (bool_decide_eq_true_2 (b ∈ b :: l)) by (apply elem_of_cons; left; reflexivity).
      destruct (bool_decide (b ∈ l)); reflexivity.
    + rewrite (bool_decide_eq_false_2 (a = b)) by exact Hne.
      destruct (decide (b ∈ l)) as [Hin|Hnin].
      * rewrite !bool_decide_eq_true_2; [reflexivity | apply elem_of_cons; right; exact Hin | exact Hin].
      * rewrite !bool_decide_eq_false_2; [reflexivity | | exact Hnin].
        intros Hc. apply elem_of_cons in Hc as [->|Hc]; [apply Hne; reflexivity | exact (Hnin Hc)].
Qed.


Lemma relevantFrom_spec ele i l b :
  b ∈ relevantFrom ele i l <->
  exists an, i <= b /\ l !! (b - i) = Some an /\ isRelevant ele an = true.
Proof.
  revert i. induction l as [|x l IH]; intros i; simpl.
  - split; [intros H; inversion H | intros (an & _ & H & _); discriminate].
  - assert (Hrec : b ∈ relevantFrom ele (S i) l <->
             exists an, i < b /\ (x :: l) !! (b - i) = Some an /\ isRelevant ele an = true).
    { rewrite IH. split; intros (an & Hle & Hl & Hr); exists an; (split; [lia|]); split; try exact Hr.
      - replace (b - i) with (S (b - S i)) by lia. exact Hl.
      - replace (b - i) with (S (b - S i)) in Hl by lia. exact Hl. }
    destruct (isRelevant ele x) eqn:R.
    + rewrite elem_of_cons, Hrec. split.
      * intros [->|(an & Hlt & Hl & Hr)].
        -- exists x. rewrite Nat.sub_diag. auto.
        -- exists an. split; [lia | auto].
      * intros (an & Hle & Hl & Hr).
        destruct (decide (b = i)) as [->|Hne]; [left; reflexivity|].
        right. exists an. split; [lia | auto].
    + rewrite Hrec. split.
      * intros (an & Hlt & Hl & Hr). exists an. split; [lia | auto].
      * intros (an & Hle & Hl & Hr).
        destruct (decide (b = i)) as [->|Hne].
        -- rewrite Nat.sub_diag in Hl. simpl in Hl. injection Hl as ->. congruence.
        -- exists an. split; [lia | auto].
Qed.

Lemma cancelAnims_lookup ele b w :
  animations (exec (cancelAnims ele) w) !! b
  = (fun an => if isRelevant ele an then idle an else an) <$> animations w !! b.
Proof.
  unfold cancelAnims. rewrite exec_bind.
  change (exec (getAnimations ele) w) with w.
  change (result (getAnimations ele) w) with (relevantFrom ele 0 (animations w)).
  rewrite forEach_cancel_lookup.
  destruct (animations w !! b) as [an|] eqn:E; [|reflexivity]. simpl. f_equal.
  destruct (isRelevant ele an) eqn:R.
  - rewrite bool_decide_eq_true_2; [reflexivity|].
    apply relevantFrom_spec. exists an. rewrite Nat.sub_0_r. split; [lia | auto].
  - rewrite bool_decide_eq_false_2; [reflexivity|].
    intros H. apply relevantFrom_spec in H as (an' & _ & Hl & Hr).
    rewrite Nat.sub_0_r, E in Hl. injection Hl as <-. congruence.
Qed.


Lemma cancelAnims_length ele w :
  length (animations (exec (cancelAnims ele) w)) = length (animations w).
Proof.
  destruct (Nat.lt_trichotomy (length (animations (exec (cancelAnims ele) w)))
              (length (animations w))) as [H|[H|H]]; [|exact H|].
  - pose proof (cancelAnims_lookup ele (length (animations (exec (cancelAnims ele) w))) w) as L.
    rewrite (lookup_ge_None_2 (animations (exec (cancelAnims ele) w))) in L by lia.
    destruct (lookup_lt_is_Some_2 (animations w) _ H) as [an E].
    rewrite E in L. discriminate.
  - pose proof (cancelAnims_lookup ele (length (animations w)) w) as L.
    rewrite (lookup_ge_None_2 (animations w)) in L by lia.
    destruct (lookup_lt_is_Some_2 (animations (exec (cancelAnims ele) w)) _ H) as [an E].
    rewrite E in L. discriminate.
Qed.

(** ** Evaluating inside a frame of the store *)

Lemma lookup_frame {A} (pre l : list A) (k : nat) :
  (pre ++ l) !! (length pre + k) = l !! k.
Proof. induction pre; simpl; auto. Qed.

Lemma lookup_frame0 {A} (pre l : list A) :
  (pre ++ l) !! (length pre) = l !! 0.
Proof. rewrite <- (Nat.add_0_r (length pre)). apply lookup_frame. Qed.

Lemma insert_frame {A} (pre l : list A) (k : nat) (x : A) :
  <[length pre + k := x]> (pre ++ l) = pre ++ <[k := x]> l.
Proof. induction pre; simpl; [reflexivity | f_equal; auto]. Qed.

Lemma insert_frame0 {A} (pre l : list A) (x : A) :
  <[length pre := x]> (pre ++ l) = pre ++ <[0 := x]> l.
Proof. rewrite <- (Nat.add_0_r (length pre)) at 1. apply insert_frame. Qed.

(** Each store operation, pushed through a frame [pre ++ l]: the
    outcome depends on [l] alone. *)
Section Frame.
Variables (o c : bool) (pf : option Element) (b kb : option string)
          (ms : N) (st : Z) (cl : list string) (ae : option Element)
          (anims : list Animation) (pre l : list Promise)
          (mt : list Job) (fr : list FrameCallback) (tr : list Obs).

Local Abbreviation W ps q := (mkWorld o c pf b kb ms st cl ae anims ps q fr tr).

Lemma resolvePromise_frame k v :
  resolvePromise (length pre + k) v (W (pre ++ l) mt)
  = (tt, match l !! k with
         | Some pr =>
             match settlement pr with
             | Pending =>
                 W (pre ++ <[k := mkPromise (Fulfilled v) [] (handled pr)]> l)
                   (mt ++ map (fulfilJob v) (reactions pr))
             | _ => W (pre ++ l) mt
             end
         | None => W (pre ++ l) mt
         end).
Proof.
  unfold resolvePromise. cbn [promises]. rewrite lookup_frame.
  destruct (l !! k) as [pr|]; [|reflexivity].
  destruct (settlement pr); try reflexivity.
  cbn. rewrite insert_frame. reflexivity.
Qed.

Lemma rejectPromise_frame k e :
  rejectPromise (length pre + k) e (W (pre ++ l) mt)
  = (tt, match l !! k with
         | Some pr =>
             match settlement pr with
             | Pending =>
                 W (pre ++ <[k := mkPromise (Rejected e) [] (handled pr)]> l)
                   (mt ++ map (rejectJob e) (reactions pr))
             | _ => W (pre ++ l) mt
             end
         | None => W (pre ++ l) mt
         end).
Proof.
  unfold rejectPromise. cbn [promises]. rewrite lookup_frame.
  destruct (l !! k) as [pr|]; [|reflexivity].
  destruct (settlement pr); try reflexivity.
  cbn. rewrite insert_frame. reflexivity.
Qed.

Lemma markHandled_frame k :
  markHandled (length pre + k) (W (pre ++ l) mt)
  = (tt, match l !! k with
         | Some pr =>
             W (pre ++ <[k := mkPromise (settlement pr) (reactions pr) true]> l) mt
         | None => W (pre ++ l) mt
         end).
Proof.
  unfold markHandled. cbn [promises]. rewrite lookup_frame.
  destruct (l !! k) as [pr|]; [|reflexivity].
  cbn. rewrite insert_frame. reflexivity.
Qed.

Lemma allocPromise_frame :
  allocPromise (W (pre ++ l) mt)
  = (length pre + length l, W (pre ++ (l ++ [pendingPromise])) mt).
Proof.
  unfold allocPromise. cbn. rewrite length_app, <- app_assoc. reflexivity.
Qed.

(** [then_] on a promise of the frame that is still pending. *)
Lemma then_frame k pr onF onR :
  l !! k = Some pr -> settlement pr = Pending ->
  then_ (length pre + k) onF onR (W (pre ++ l) mt)
  = (length pre + length l,
     W (pre ++ (<[k := mkPromise Pending
                         (reactions pr ++
                            [mkReaction onF onR (length pre + length l)])
                         true]> l ++ [pendingPromise])) mt).
Proof.
  intros Hk Hp. unfold then_. rewrite bind_eq.
  unfold result, exec. rewrite allocPromise_frame. cbn [fst snd].
  rewrite bind_eq. unfold result, exec. cbn [promises].
  rewrite lookup_frame, (lookup_app_l_Some _ _ _ _ Hk), Hp.
  cbn. rewrite insert_frame.
  rewrite insert_app_l by (eapply lookup_lt_Some; exact Hk).
  reflexivity.
Qed.

Lemma resolvePromise_frame0 v :
  resolvePromise (length pre) v (W (pre ++ l) mt)
  = (tt, match l !! 0 with
         | Some pr =>
             match settlement pr with
             | Pending =>
                 W (pre ++ <[0 := mkPromise (Fulfilled v) [] (handled pr)]> l)
                   (mt ++ map (fulfilJob v) (reactions pr))
             | _ => W (pre ++ l) mt
             end
         | None => W (pre ++ l) mt
         end).
Proof. rewrite <- (Nat.add_0_r (length pre)) at 1. apply resolvePromise_frame. Qed.

Lemma rejectPromise_frame0 e :
  rejectPromise (length pre) e (W (pre ++ l) mt)
  = (tt, match l !! 0 with
         | Some pr =>
             match settlement pr with
             | Pending =>
                 W (pre ++ <[0 := mkPromise (Rejected e) [] (handled pr)]> l)
                   (mt ++ map (rejectJob e) (reactions pr))
             | _ => W (pre ++ l) mt
             end
         | None => W (pre ++ l) mt
         end).
Proof. rewrite <- (Nat.add_0_r (length pre)) at 1. apply rejectPromise_frame. Qed.

Lemma markHandled_frame0 :
  markHandled (length pre) (W (pre ++ l) mt)
  = (tt, match l !! 0 with
         | Some pr =>
             W (pre ++ <[0 := mkPromise (settlement pr) (reactions pr) true]> l) mt
         | None => W (pre ++ l) mt
         end).
Proof. rewrite <- (Nat.add_0_r (length pre)) at 1. apply markHandled_frame. Qed.

Lemma then_frame0 pr onF onR :
  l !! 0 = Some pr -> settlement pr = Pending ->
  then_ (length pre) onF onR (W (pre ++ l) mt)
  = (length pre + length l,
     W (pre ++ (<[0 := mkPromise Pending
                         (reactions pr ++
                            [mkReaction onF onR (length pre + length l)])
                         true]> l ++ [pendingPromise])) mt).
Proof. rewrite <- (Nat.add_0_r (length pre)) at 1. apply then_frame. Qed.
End Frame.

Lemma bind_assoc {A B C} (m : M A) (k : A -> M B) (r : B -> M C) (w : World) :
  bind m (fun a => bind (k a) r) w = bind (bind m k) r w.
Proof. unfold bind. destruct (m w) as [a w1]. reflexivity. Qed.


(** ** The store as a function of the animations *)

Lemma length_block f a an : length (block f a an) = 5.
Proof. unfold block. destruct (playState an); reflexivity. Qed.

Lemma length_store i l : length (store i l) = 5 * length l.
Proof.
  revert i. induction l as [|an l IH]; intros i; cbn [store length]; [reflexivity|].
  rewrite length_app, length_block, IH. lia.
Qed.

Lemma store_app i l1 l2 :
  store i (l1 ++ l2) = store i l1 ++ store (i + length l1) l2.
Proof.
  revert i. induction l1 as [|an l1 IH]; intros i; cbn [store app length].
  - rewrite Nat.add_0_r. reflexivity.
  - rewrite IH, <- app_assoc.
    replace (S i + length l1) with (i + S (length l1)) by lia. reflexivity.
Qed.

Lemma store_snoc l an :
  store 0 (l ++ [an])
  = store 0 l ++ block (length (store 0 l)) (length l) an.
Proof.
  rewrite store_app. cbn [store Nat.add]. rewrite app_nil_r, length_store. reflexivity.
Qed.

(** ** [getAnimations] when at most the last animation is running *)

Lemma relevantFrom_app ele i l1 l2 :
  relevantFrom ele i (l1 ++ l2)
  = relevantFrom ele i l1 ++ relevantFrom ele (i + length l1) l2.
Proof.
  revert i. induction l1 as [|an l1 IH]; intros i; simpl.
  - rewrite Nat.add_0_r. reflexivity.
  - rewrite IH. replace (S i + length l1) with (i + S (length l1)) by lia.
    destruct (isRelevant ele an); reflexivity.
Qed.

Lemma relevantFrom_quiet ele i l :
  Forall (fun an => playState an <> Running) l -> relevantFrom ele i l = [].
Proof.
  revert i. induction l as [|an l IH]; intros i H; simpl; [reflexivity|].
  apply Forall_cons in H as [H1 H2].
  unfold isRelevant. rewrite (bool_decide_eq_false_2 (playState an = Running)) by exact H1.
  rewrite andb_false_r. apply IH, H2.
Qed.


(** ** Starting an animation and chaining on it *)

Ltac mnext := rewrite bind_eq; unfold result, exec.

(** Normalises field updates of an explicit record. *)
Ltac wnorm :=
  cbv beta iota delta
    [set_isOpen set_isClosed set_prevFocusElement set_backdrop set_keyboard
     set_animMsec set_scrollTop set_classList set_activeElement
     set_animations set_promises set_microtasks set_frameRequests set_trace
     isOpen isClosed prevFocusElement backdrop keyboard animMsec scrollTop
     classList activeElement animations promises microtasks frameRequests
     trace].

Ltac lred :=
  cbn [fst snd length app lookup list_lookup insert list_insert
       settlement reactions handled Nat.add].

Lemma animate_eq ele k msec o c pf b kb ms st cl ae anims ps mt fr tr :
  animate ele k msec (mkWorld o c pf b kb ms st cl ae anims ps mt fr tr)
  = (length anims,
     mkWorld o c pf b kb ms st cl ae
       (anims ++ [mkAnimation ele k msec Running (length ps)])
       (ps ++ [pendingPromise]) mt fr (tr ++ [ObsAnimate (length anims) k])).
Proof. reflexivity. Qed.

(** [showAnim] and [hideAnim]: the returned promise is the one allocated
    right after the animation's [finished]. *)
Lemma anim_eq ele k msec o c pf b kb ms st cl ae anims ps mt fr tr :
  match k with
  | Entrance => showAnim ele msec
  | Exit => hideAnim ele msec
  end (mkWorld o c pf b kb ms st cl ae anims ps mt fr tr)
  = (length ps + 1,
     mkWorld o c pf b kb ms st cl ae
       (anims ++ [mkAnimation ele k msec Running (length ps)])
       (ps ++ [ mkPromise Pending
                  [mkReaction (Some (CbResolve (length ps + 1) (length anims)))
                     None (length ps + 2)] true;
                mkPromise Pending [] false;
                mkPromise Pending
                  [mkReaction None (Some CbNoop) (length ps + 3)] true;
                mkPromise Pending [] false ])
       mt fr (tr ++ [ObsAnimate (length anims) k])).
Proof.
  assert (E : forall kf,
    (anim <- animate ele kf msec ;;
     newPromise (fun resolve =>
       fin <- gets (fun w => default 0 (finished <$> animations w !! anim)) ;;
       t <- then_ fin (Some (CbResolve resolve anim)) None ;;
       _ <- catch_ t CbNoop ;;
       ret tt))%js (mkWorld o c pf b kb ms st cl ae anims ps mt fr tr)
    = (length ps + 1,
       mkWorld o c pf b kb ms st cl ae
         (anims ++ [mkAnimation ele kf msec Running (length ps)])
         (ps ++ [ mkPromise Pending
                    [mkReaction (Some (CbResolve (length ps + 1) (length anims)))
                       None (length ps + 2)] true;
                  mkPromise Pending [] false;
                  mkPromise Pending
                    [mkReaction None (Some CbNoop) (length ps + 3)] true;
                  mkPromise Pending [] false ])
         mt fr (tr ++ [ObsAnimate (length anims) kf]))).
  { intros kf. mnext. rewrite animate_eq. lred.
    unfold newPromise. mnext. rewrite allocPromise_frame. lred.
    mnext. mnext.
    unfold gets at 1 2. cbn [fst snd animations].
    rewrite lookup_frame0.
    cbn [lookup list_lookup fmap option_fmap option_map default from_option
         id finished].
    mnext.
    rewrite (then_frame0 _ _ _ _ _ _ _ _ _ _ _ _ _ _ _ pendingPromise) by reflexivity.
    unfold pendingPromise. lred.
    mnext. unfold catch_.
    rewrite (then_frame _ _ _ _ _ _ _ _ _ _ _ _ _ _ _ 2 (mkPromise Pending [] false))
      by reflexivity.
    lred. reflexivity. }
  destruct k; apply E.
Qed.

Lemma animThen (ele : Element) (k : Keyframes) (msec : N) (cb : Callback) (w : World) :
  (p <- match k with
        | Entrance => showAnim ele msec
        | Exit => hideAnim ele msec
        end ;; then_ p (Some cb) None)%js w
  = (length (promises w) + 4,
      set_trace (trace w ++ [ObsAnimate (length (animations w)) k])
        (set_animations
           (animations w ++
              [mkAnimation ele k msec Running (length (promises w))])
           (set_promises
              (promises w ++
                 runningBlock (length (promises w)) (length (animations w)) cb)
              w))).
Proof.
  destruct w as [o c pf b kb ms st cl ae anims ps mt fr tr].
  mnext. rewrite anim_eq. lred.
  rewrite (then_frame _ _ _ _ _ _ _ _ _ _ _ _ _ _ _ 1 (mkPromise Pending [] false))
    by reflexivity.
  lred. reflexivity.
Qed.

(** ** [show] and [hide], on any page *)

Lemma show_rejected (w : World) : isOpen w = true -> show w = (false, w).
Proof. intros H. unfold show, bind, gets. rewrite H. reflexivity. Qed.

Lemma show_accepted (w : World) :
  isOpen w = false ->
  show w
  = (true, ticked (started Entrance "show"
                     (exec (cancelAnims Container) (showPrologue w)))).
Proof.
  intros H. unfold show, getFocusElement, dispatchEvent, tick.
  mstep. rewrite H.
  do 5 mstep. fold (showPrologue w).
  mstep. set (w1 := exec (cancelAnims Container) (showPrologue w)).
  do 2 mstep.
  rewrite (bind_assoc (showAnim _ _)), bind_eq. unfold result, exec.
  pose proof (animThen Container Entrance (animMsec w1) CbShown
                (set_trace (trace w1 ++ [ObsDispatch (createEvent "show")]) w1)) as E.
  cbv beta iota in E. cbn [animMsec set_trace] in *. rewrite E. cbn [fst snd].
  repeat mstep.
  unfold ticked, started, ret. destruct w1; cbn. rewrite <- app_assoc. reflexivity.
Qed.

Lemma hide_rejected (w : World) : isOpen w = false -> hide w = (false, w).
Proof. intros H. unfold hide, bind, gets. rewrite H. reflexivity. Qed.

Lemma hide_accepted (w : World) :
  isOpen w = true ->
  hide w
  = (true, started Exit "hide" (exec (cancelAnims Container) (hidePrologue w))).
Proof.
  intros H. unfold hide, dispatchEvent.
  mstep. rewrite H. cbn [negb].
  do 2 mstep. fold (hidePrologue w).
  mstep. set (w1 := exec (cancelAnims Container) (hidePrologue w)).
  do 2 mstep.
  rewrite (bind_assoc (hideAnim _ _)), bind_eq. unfold result, exec.
  pose proof (animThen Container Exit (animMsec w1) CbHidden
                (set_trace (trace w1 ++ [ObsDispatch (createEvent "hide")]) w1)) as E.
  cbv beta iota in E. cbn [animMsec set_trace] in *. rewrite E. cbn [fst snd].
  unfold started, ret. destruct w1; cbn. rewrite <- app_assoc. reflexivity.
Qed.

(** ** Closed forms of the engine transitions *)

Lemma setPlayState_last s o c pf b kb ms st cl ae olds an ps mt fr tr :
  setPlayState (length olds) s
    (mkWorld o c pf b kb ms st cl ae (olds ++ [an]) ps mt fr tr)
  = (tt, mkWorld o c pf b kb ms st cl ae
           (olds ++ [mkAnimation (target an) (keyframes an) (duration an) s
                       (finished an)])
           ps mt fr tr).
Proof.
  unfold setPlayState. cbn [animations]. rewrite lookup_frame0. cbn.
  rewrite insert_frame0. reflexivity.
Qed.

Lemma cancelAnims_quiet (w : World) :
  Forall (fun an => playState an <> Running) (animations w) ->
  exec (cancelAnims Container) w = w.
Proof.
  intros H. unfold cancelAnims, getAnimations. mstep.
  rewrite relevantFrom_quiet by exact H. reflexivity.
Qed.

Lemma cancelAnims_running (w : World) olds pre k du cb :
  Forall (fun an => playState an <> Running) olds ->
  animations w = olds ++ [mkAnimation Container k du Running (length pre)] ->
  promises w = pre ++ runningBlock (length pre) (length olds) cb ->
  exec (cancelAnims Container) w
  = set_trace (trace w ++ [ObsCancel (length olds)])
      (set_animations (olds ++ [mkAnimation Container k du Idle (length pre)])
         (set_microtasks
            (microtasks w ++ [mkJob None true VAbortError (length pre + 2)])
            (set_promises
               (pre ++ [ mkPromise (Rejected VAbortError) [] true;
                         mkPromise Pending [mkReaction (Some cb) None (length pre + 4)] true;
                         mkPromise Pending [mkReaction None (Some CbNoop) (length pre + 3)] true;
                         mkPromise Pending [] false;
                         mkPromise Pending [] false ])
               w))).
Proof.
  intros Hq Ha Hp. unfold cancelAnims, getAnimations. mstep.
  rewrite Ha, relevantFrom_app, relevantFrom_quiet by exact Hq.
  destruct w as [o c pf b kb ms st cl ae anims ps mt fr tr].
  cbn [animations promises] in Ha, Hp. subst anims ps.
  cbn [relevantFrom app]. unfold isRelevant. cbn [target playState].
  rewrite !bool_decide_eq_true_2 by reflexivity. cbn [andb forEach Nat.add].
  mstep. unfold exec, cancel. cbn [animations]. rewrite lookup_frame0.
  cbn [lookup list_lookup playState finished].
  mnext. unfold runningBlock. rewrite rejectPromise_frame0. lred.
  mnext. rewrite markHandled_frame0. lred.
  mnext. rewrite setPlayState_last. lred.
  reflexivity.
Qed.


(** ** Closed forms of the checkpoints *)

Lemma runMicrotasks_cons fuel j q o c pf b kb ms st cl ae anims ps fr tr :
  runMicrotasks (S fuel) (mkWorld o c pf b kb ms st cl ae anims ps (j :: q) fr tr)
  = runMicrotasks fuel
      (exec (runJob j) (mkWorld o c pf b kb ms st cl ae anims ps q fr tr)).
Proof. reflexivity. Qed.

Lemma runMicrotasks_nil fuel o c pf b kb ms st cl ae anims ps fr tr :
  runMicrotasks fuel (mkWorld o c pf b kb ms st cl ae anims ps [] fr tr)
  = mkWorld o c pf b kb ms st cl ae anims ps [] fr tr.
Proof. destruct fuel; reflexivity. Qed.

Lemma runJob_reject e d w :
  exec (runJob (mkJob None true e d)) w = (rejectPromise d e w).2.
Proof. reflexivity. Qed.

Lemma runJob_fulfil v d w :
  exec (runJob (mkJob None false v d)) w = (resolvePromise d v w).2.
Proof. reflexivity. Qed.

Lemma runJob_handler cb r v d w :
  exec (runJob (mkJob (Some cb) r v d)) w
  = (resolvePromise d VUndefined
       (exec (runCallback cb) (set_trace (trace w ++ [ObsCallback cb v]) w))).2.
Proof. unfold runJob. cbn [handler argument capability]. do 2 mstep. reflexivity. Qed.

Ltac jred :=
  cbv beta iota delta
    [map list_fmap rejectJob fulfilJob onFulfilled onRejected derived].

Lemma checkpoint_abort o c pf b kb ms st cl ae anims pre p0 p1 post fr tr :
  checkpoint
    (mkWorld o c pf b kb ms st cl ae anims
       (pre ++ [ p0; p1;
                 mkPromise Pending [mkReaction None (Some CbNoop) (length pre + 3)] true;
                 mkPromise Pending [] false ] ++ post)
       [mkJob None true VAbortError (length pre + 2)] fr tr)
  = mkWorld o c pf b kb ms st cl ae anims
      (pre ++ [ p0; p1;
                mkPromise (Rejected VAbortError) [] true;
                mkPromise (Fulfilled VUndefined) [] false ] ++ post)
      [] fr (tr ++ [ObsCallback CbNoop VAbortError]).
Proof.
  match goal with |- checkpoint ?w = ?r => assert (R : runMicrotasks 2 w = r) end.
  { rewrite runMicrotasks_cons, runJob_reject, rejectPromise_frame. lred. jred.
    rewrite runMicrotasks_cons, runJob_handler. wnorm.
    unfold runCallback. rewrite exec_ret, resolvePromise_frame. lred.
    reflexivity. }
  rewrite (checkpoint_fuel 2); rewrite R; reflexivity.
Qed.
(** An animation reaches its end: the finish callback resolves the
    returned promise, whose continuation runs in the same checkpoint. *)
Lemma step_finish o c pf b kb ms st cl ae olds pre k du fr tr :
  step (AnimationFinish (length olds))
    (mkWorld o c pf b kb ms st cl ae
       (olds ++ [mkAnimation Container k du Running (length pre)])
       (pre ++ runningBlock (length pre) (length olds) (continuation k))
       [] fr tr)
  = mkWorld o
      (match k with Entrance => c | Exit => true end)
      pf b kb ms st cl
      (match k with
       | Entrance => ae
       | Exit => match pf with Some e => Some e | None => ae end
       end)
      (olds ++ [mkAnimation Container k du Finished (length pre)])
      (pre ++ finishedBlock (length olds))
      [] fr
      (tr ++ [ObsCallback (CbResolve (length pre + 1) (length olds))
                (VAnimation (length olds));
              ObsCallback (continuation k) (VAnimation (length olds));
              ObsDispatch (createEvent (endName k))]).
Proof.
  unfold step, task, finish. unfold exec at 1. cbn [animations].
  rewrite lookup_frame0. cbn [lookup list_lookup playState finished].
  mnext. rewrite setPlayState_last. lred. cbn [target keyframes duration finished].
  unfold runningBlock. rewrite resolvePromise_frame0. lred. jred.
  match goal with |- checkpoint ?w = ?r => assert (R : runMicrotasks 3 w = r) end.
  { cbn [app].
    rewrite runMicrotasks_cons, runJob_handler. wnorm.
    unfold runCallback at 1. unfold exec at 1.
    rewrite resolvePromise_frame. lred. jred.
    rewrite resolvePromise_frame. lred. jred. cbn [app].
    rewrite runMicrotasks_cons, runJob_handler. wnorm.
    destruct k; cbn [continuation runCallback].
    - unfold dispatchEvent. autorewrite with mon. wnorm.
      rewrite resolvePromise_frame. lred.
      rewrite runMicrotasks_cons, runJob_fulfil, resolvePromise_frame. lred.
      rewrite runMicrotasks_nil. unfold finishedBlock, endName.
      rewrite <- !app_assoc. reflexivity.
    - unfold dispatchEvent, focus. do 3 mstep. wnorm.
      destruct pf as [e|]; autorewrite with mon; wnorm;
        rewrite resolvePromise_frame; lred;
        rewrite runMicrotasks_cons, runJob_fulfil, resolvePromise_frame; lred;
        rewrite runMicrotasks_nil; unfold finishedBlock, endName;
        rewrite <- !app_assoc; reflexivity. }
  rewrite (checkpoint_fuel 3); rewrite R; reflexivity.
Qed.

(** ** Closed forms of [show] and [hide] as steps *)

Lemma classList_add_eq s o c pf b kb ms st cl ae anims ps mt fr tr :
  exec (classList_add s) (mkWorld o c pf b kb ms st cl ae anims ps mt fr tr)
  = mkWorld o c pf b kb ms st
      (if bool_decide (s ∈ cl) then cl else cl ++ [s])
      ae anims ps mt fr tr.
Proof.
  unfold classList_add. rewrite exec_modify. cbn [classList].
  destruct (bool_decide (s ∈ cl)); reflexivity.
Qed.

Lemma step_show_rest c pf b kb ms st cl ae olds ps fr tr :
  quiet olds ->
  step CallShow (mkWorld false c pf b kb ms st cl ae olds ps [] fr tr)
  = mkWorld true false ae b kb ms st
      (if bool_decide ("modal-open" ∈ cl) then cl else cl ++ ["modal-open"])
      ae
      (olds ++ [mkAnimation Container Entrance ms Running (length ps)])
      (ps ++ runningBlock (length ps) (length olds) CbShown)
      [] (fr ++ [FrameFocus])
      (tr ++ [ObsDispatch (createEvent "show"); ObsAnimate (length olds) Entrance]).
Proof.
  intros Hq. unfold step, task. mstep. unfold exec at 1.
  rewrite show_accepted by reflexivity. cbn [snd].
  unfold showPrologue. wnorm. rewrite classList_add_eq.
  rewrite cancelAnims_quiet by exact Hq.
  unfold ticked, started. wnorm. apply checkpoint_idle. reflexivity.
Qed.

Lemma step_hide_rest c pf b kb ms st cl ae olds ps fr tr :
  quiet olds ->
  step CallHide (mkWorld true c pf b kb ms st cl ae olds ps [] fr tr)
  = mkWorld false c pf b kb ms st
      (filter (fun x => x <> "modal-open") cl)
      ae
      (olds ++ [mkAnimation Container Exit ms Running (length ps)])
      (ps ++ runningBlock (length ps) (length olds) CbHidden)
      [] fr
      (tr ++ [ObsDispatch (createEvent "hide"); ObsAnimate (length olds) Exit]).
Proof.
  intros Hq. unfold step, task. mstep. unfold exec at 1.
  rewrite hide_accepted by reflexivity. cbn [snd].
  unfold hidePrologue, classList_remove. rewrite exec_modify. wnorm.
  rewrite cancelAnims_quiet by exact Hq.
  unfold started. wnorm. apply checkpoint_idle. reflexivity.
Qed.

Lemma step_show_moving c pf b kb ms st cl ae olds pre k du fr tr :
  quiet olds ->
  step CallShow
    (mkWorld false c pf b kb ms st cl ae
       (olds ++ [mkAnimation Container k du Running (length pre)])
       (pre ++ runningBlock (length pre) (length olds) (continuation k))
       [] fr tr)
  = mkWorld true false ae b kb ms st
      (if bool_decide ("modal-open" ∈ cl) then cl else cl ++ ["modal-open"])
      ae
      (olds ++ [mkAnimation Container k du Idle (length pre);
                mkAnimation Container Entrance ms Running (length pre + 5)])
      (pre ++ idleBlock (length pre) (continuation k) ++
         runningBlock (length pre + 5) (length olds + 1) CbShown)
      [] (fr ++ [FrameFocus])
      (tr ++ [ObsCancel (length olds);
              ObsDispatch (createEvent "show");
              ObsAnimate (length olds + 1) Entrance;
              ObsCallback CbNoop VAbortError]).
Proof.
  intros Hq. unfold step, task. mstep. unfold exec at 1.
  rewrite show_accepted by reflexivity. cbn [snd].
  unfold showPrologue. wnorm. rewrite classList_add_eq.
  rewrite (cancelAnims_running _ olds pre k du (continuation k) Hq)
    by reflexivity.
  unfold ticked, started. wnorm. cbn [app].
  rewrite !length_app. cbn [length].
  rewrite <- !app_assoc. cbn [app].
  change (pre ++ ?a :: ?b :: ?c :: ?d :: ?post)
    with (pre ++ [a; b; c; d] ++ post).
  rewrite checkpoint_abort. unfold idleBlock. cbn [app].
  rewrite <- ?app_assoc. cbn [app]. reflexivity.
Qed.

Lemma step_hide_moving c pf b kb ms st cl ae olds pre k du fr tr :
  quiet olds ->
  step CallHide
    (mkWorld true c pf b kb ms st cl ae
       (olds ++ [mkAnimation Container k du Running (length pre)])
       (pre ++ runningBlock (length pre) (length olds) (continuation k))
       [] fr tr)
  = mkWorld false c pf b kb ms st
      (filter (fun x => x <> "modal-open") cl)
      ae
      (olds ++ [mkAnimation Container k du Idle (length pre);
                mkAnimation Container Exit ms Running (length pre + 5)])
      (pre ++ idleBlock (length pre) (continuation k) ++
         runningBlock (length pre + 5) (length olds + 1) CbHidden)
      [] fr
      (tr ++ [ObsCancel (length olds);
              ObsDispatch (createEvent "hide");
              ObsAnimate (length olds + 1) Exit;
              ObsCallback CbNoop VAbortError]).
Proof.
  intros Hq. unfold step, task. mstep. unfold exec at 1.
  rewrite hide_accepted by reflexivity. cbn [snd].
  unfold hidePrologue, classList_remove. rewrite exec_modify. wnorm.
  rewrite (cancelAnims_running _ olds pre k du (continuation k) Hq)
    by reflexivity.
  unfold started. wnorm. cbn [app].
  rewrite !length_app. cbn [length].
  rewrite <- !app_assoc. cbn [app].
  change (pre ++ ?a :: ?b :: ?c :: ?d :: ?post)
    with (pre ++ [a; b; c; d] ++ post).
  rewrite checkpoint_abort. unfold idleBlock. cbn [app].
  rewrite <- ?app_assoc. cbn [app]. reflexivity.
Qed.

(** ** Order of the trace *)

Lemma ordered_nil : ordered [].
Proof. intros pre o post E. destruct pre; discriminate. Qed.

Lemma ordered_snoc t x : ordered t -> goodAt t x -> ordered (t ++ [x]).
Proof.
  intros Ht Hx pre o post E.
  destruct (decide (post = [])) as [->|Hne].
  - apply app_inj_tail in E as [-> ->]. exact Hx.
  - destruct (exists_last Hne) as (post' & y & ->).
    change (pre ++ o :: post' ++ [y]) with (pre ++ (o :: post') ++ [y]) in E.
    rewrite app_assoc in E. apply app_inj_tail in E as [E _].
    exact (Ht pre o post' E).
Qed.

Lemma endName_inj k k' : createEvent (endName k) = createEvent (endName k') -> k = k'.
Proof. destruct k, k'; intros H; try reflexivity; discriminate. Qed.

Lemma goodAt_start t k a :
  goodAt (t ++ [ObsDispatch (createEvent (startName k))]) (ObsAnimate a k).
Proof. exists t. reflexivity. Qed.

Lemma goodAt_startEvent t k : goodAt t (ObsDispatch (createEvent (startName k))).
Proof. intros k' H. destruct k, k'; discriminate. Qed.

Lemma goodAt_endEvent t k a p :
  ObsAnimate a k ∈ t ->
  goodAt (t ++ [ObsCallback (CbResolve p a) (VAnimation a);
                ObsCallback (continuation k) (VAnimation a)])
    (ObsDispatch (createEvent (endName k))).
Proof.
  intros Hin k' H. apply endName_inj in H as <-.
  exists t, a, p. split; [reflexivity | exact Hin].
Qed.

(** ** Shape lemmas *)

Lemma quiet_snoc l an : quiet l -> playState an <> Running -> quiet (l ++ [an]).
Proof.
  intros Hl Ha. apply Forall_app. split; [exact Hl|].
  constructor; [exact Ha | constructor].
Qed.

Lemma indexed_snoc l an :
  indexed l -> finished an = length (store 0 l) -> target an = Container ->
  indexed (l ++ [an]).
Proof.
  intros Hl Hf Ht a x E.
  destruct (decide (a < length l)) as [Hlt|Hge].
  - rewrite lookup_app_l in E by exact Hlt. exact (Hl a x E).
  - apply lookup_lt_Some in E as Hlen. rewrite length_app in Hlen. simpl in Hlen.
    assert (a = length l) as -> by lia.
    rewrite lookup_frame0 in E. simpl in E. injection E as <-.
    rewrite Hf, length_store. auto.
Qed.

Lemma quiet_lookup l a an :
  quiet l -> l !! a = Some an -> playState an <> Running.
Proof.
  intros Hq E. unfold quiet in Hq. rewrite Forall_lookup in Hq. exact (Hq a an E).
Qed.

(** A task that leaves the engine and the two flags alone keeps the
    invariant. *)
Lemma Inv_same w w' :
  Inv w ->
  animations w' = animations w -> promises w' = promises w ->
  microtasks w' = microtasks w -> trace w' = trace w ->
  isOpen w' = isOpen w -> isClosed w' = isClosed w ->
  Inv w'.
Proof.
  intros [Iq (olds & Hq & Hi & Hp) Is Ic Io] Ea Ep Em Et Eo Ec.
  split.
  - rewrite Em. exact Iq.
  - exists olds. split; [exact Hq|]. split; [exact Hi|].
    destruct Hp as [H1 H2 H3 | k du H1 H2 H3 H4].
    + apply phase_rest; congruence.
    + apply (phase_moving _ _ k du); congruence.
  - rewrite Ea, Et. exact Is.
  - rewrite Ea, Et. exact Ic.
  - rewrite Et. exact Io.
Qed.

Lemma Inv_initial : Inv initial.
Proof.
  split.
  - reflexivity.
  - exists []. split; [constructor|]. split; [intros a an E; discriminate|].
    apply phase_rest; reflexivity.
  - intros a an E. discriminate.
  - intros cb a H. inversion H.
  - apply ordered_nil.
Qed.

(** ** The three transitions keep the invariant *)

Ltac inList H :=
  repeat (apply elem_of_cons in H as [H|H]; [try discriminate H|]);
  try (apply elem_of_nil in H; destruct H).

Lemma Inv_started_rest w w' k du :
  Inv w ->
  (exists olds, quiet olds /\ indexed olds /\ animations w = olds
                /\ promises w = store 0 olds) ->
  animations w'
  = animations w ++ [mkAnimation Container k du Running (length (promises w))] ->
  promises w'
  = promises w ++
    runningBlock (length (promises w)) (length (animations w)) (continuation k) ->
  microtasks w' = [] ->
  trace w' = trace w ++ [ObsDispatch (createEvent (startName k));
                         ObsAnimate (length (animations w)) k] ->
  isOpen w' = bool_decide (k = Entrance) ->
  isClosed w' = false ->
  Inv w'.
Proof.
  intros [Iq _ Is Ic Io] (olds & Hq & Hi & Ha & Hp) Ea Ep Em Et Eo Ec.
  split.
  - exact Em.
  - exists olds. split; [exact Hq|]. split; [exact Hi|].
    apply (phase_moving _ _ k du); try assumption.
    + rewrite Ea, Ha, Hp. reflexivity.
    + rewrite Ep, Ha, Hp. reflexivity.
  - intros a an E. rewrite Et. rewrite Ea in E.
    destruct (decide (a < length (animations w))) as [Hlt|Hge].
    + rewrite lookup_app_l in E by exact Hlt.
      apply elem_of_app. left. exact (Is a an E).
    + apply lookup_lt_Some in E as Hlen. rewrite length_app in Hlen. simpl in Hlen.
      assert (a = length (animations w)) as -> by lia.
      rewrite lookup_frame0 in E. simpl in E. injection E as <-.
      apply elem_of_app. right. simpl. apply elem_of_cons. right.
      apply elem_of_cons. left. reflexivity.
  - intros cb a H. rewrite Et in H. apply elem_of_app in H as [H|H].
    + destruct (Ic cb a H) as (an & E & P). exists an. split; [|exact P].
      rewrite Ea. apply lookup_app_l_Some. exact E.
    + inList H.
  - rewrite Et.
    change (trace w ++ [?x; ?y]) with (trace w ++ [x] ++ [y]).
    rewrite app_assoc.
    apply ordered_snoc; [apply ordered_snoc; [exact Io|]|].
    + apply goodAt_startEvent.
    + apply goodAt_start.
Qed.

Lemma Inv_started_moving w w' olds k0 du0 k du :
  Inv w ->
  quiet olds -> indexed olds ->
  animations w
  = olds ++ [mkAnimation Container k0 du0 Running (length (store 0 olds))] ->
  animations w'
  = olds ++ [mkAnimation Container k0 du0 Idle (length (store 0 olds));
             mkAnimation Container k du Running (length (store 0 olds) + 5)] ->
  promises w'
  = store 0 olds ++ idleBlock (length (store 0 olds)) (continuation k0) ++
    runningBlock (length (store 0 olds) + 5) (length olds + 1) (continuation k) ->
  microtasks w' = [] ->
  trace w' = trace w ++ [ObsCancel (length olds);
                         ObsDispatch (createEvent (startName k));
                         ObsAnimate (length olds + 1) k;
                         ObsCallback CbNoop VAbortError] ->
  isOpen w' = bool_decide (k = Entrance) ->
  isClosed w' = false ->
  Inv w'.
Proof.
  intros [Iq _ Is Ic Io] Hq Hi Ha Ea Ep Em Et Eo Ec.
  set (an0 := mkAnimation Container k0 du0 Idle (length (store 0 olds))).
  assert (Hs : store 0 (olds ++ [an0])
               = store 0 olds ++ idleBlock (length (store 0 olds)) (continuation k0)).
  { rewrite store_snoc. reflexivity. }
  assert (Hl : length (store 0 (olds ++ [an0])) = length (store 0 olds) + 5).
  { rewrite Hs, length_app. reflexivity. }
  split.
  - exact Em.
  - exists (olds ++ [an0]).
    split; [apply quiet_snoc; [exact Hq | discriminate]|].
    split; [apply indexed_snoc; [exact Hi | reflexivity | reflexivity]|].
    apply (phase_moving _ _ k du); try assumption.
    + rewrite Ea, Hl, <- app_assoc. reflexivity.
    + rewrite Ep, Hl, Hs, <- app_assoc, length_app. reflexivity.
  - intros a an E. rewrite Et. rewrite Ea in E.
    apply elem_of_app.
    destruct (decide (a < length olds)) as [Hlt|Hge].
    + left. apply Is. rewrite Ha.
      rewrite lookup_app_l in E by exact Hlt.
      apply lookup_app_l_Some. exact E.
    + apply lookup_lt_Some in E as Hlen. rewrite length_app in Hlen. simpl in Hlen.
      destruct (decide (a = length olds)) as [->|Hne].
      * left. rewrite lookup_frame0 in E. simpl in E. injection E as <-.
        apply (Is (length olds) (mkAnimation Container k0 du0 Running
                                   (length (store 0 olds)))).
        rewrite Ha, lookup_frame0. reflexivity.
      * assert (a = length olds + 1) as -> by lia.
        rewrite lookup_frame in E. simpl in E. injection E as <-.
        right. simpl. do 2 (apply elem_of_cons; right).
        apply elem_of_cons. left. reflexivity.
  - intros cb a H. rewrite Et in H. apply elem_of_app in H as [H|H].
    + destruct (Ic cb a H) as (an & E & P). exists an. split; [|exact P].
      rewrite Ha in E. rewrite Ea.
      destruct (decide (a < length olds)) as [Hlt|Hge].
      * rewrite lookup_app_l in E by exact Hlt.
        apply lookup_app_l_Some. exact E.
      * apply lookup_lt_Some in E as Hlen. rewrite length_app in Hlen. simpl in Hlen.
        assert (a = length olds) as -> by lia.
        rewrite lookup_frame0 in E. simpl in E. injection E as <-. discriminate.
    + inList H.
  - rewrite Et.
    change (trace w ++ [?x; ?y; ?z; ?u]) with (trace w ++ [x] ++ [y] ++ [z] ++ [u]).
    rewrite !app_assoc.
    repeat apply ordered_snoc; try exact Io.
    + exact I.
    + apply goodAt_startEvent.
    + apply goodAt_start.
    + exact I.
Qed.

Lemma Inv_finished w w' olds k du :
  Inv w ->
  quiet olds -> indexed olds ->
  animations w
  = olds ++ [mkAnimation Container k du Running (length (store 0 olds))] ->
  animations w'
  = olds ++ [mkAnimation Container k du Finished (length (store 0 olds))] ->
  promises w' = store 0 olds ++ finishedBlock (length olds) ->
  microtasks w' = [] ->
  trace w' = trace w ++ [ObsCallback (CbResolve (length (store 0 olds) + 1)
                                        (length olds))
                           (VAnimation (length olds));
                         ObsCallback (continuation k) (VAnimation (length olds));
                         ObsDispatch (createEvent (endName k))] ->
  isClosed w' = negb (isOpen w') ->
  Inv w'.
Proof.
  intros [Iq _ Is Ic Io] Hq Hi Ha Ea Ep Em Et Ec.
  set (an0 := mkAnimation Container k du Finished (length (store 0 olds))).
  assert (Hs : store 0 (olds ++ [an0])
               = store 0 olds ++ finishedBlock (length olds)).
  { rewrite store_snoc. reflexivity. }
  assert (Hrun : ObsAnimate (length olds) k ∈ trace w).
  { apply (Is (length olds) (mkAnimation Container k du Running
                               (length (store 0 olds)))).
    rewrite Ha, lookup_frame0. reflexivity. }
  split.
  - exact Em.
  - exists (olds ++ [an0]).
    split; [apply quiet_snoc; [exact Hq | discriminate]|].
    split; [apply indexed_snoc; [exact Hi | reflexivity | reflexivity]|].
    apply phase_rest; [exact Ea | rewrite Ep, Hs; reflexivity | exact Ec].
  - intros a an E. rewrite Et. rewrite Ea in E.
    apply elem_of_app. left.
    destruct (decide (a < length olds)) as [Hlt|Hge].
    + apply Is. rewrite Ha.
      rewrite lookup_app_l in E by exact Hlt.
      apply lookup_app_l_Some. exact E.
    + apply lookup_lt_Some in E as Hlen. rewrite length_app in Hlen. simpl in Hlen.
      assert (a = length olds) as -> by lia.
      rewrite lookup_frame0 in E. simpl in E. injection E as <-. exact Hrun.
  - intros cb a H. rewrite Et in H. apply elem_of_app in H as [H|H].
    + destruct (Ic cb a H) as (an & E & P). exists an. split; [|exact P].
      rewrite Ha in E. rewrite Ea.
      destruct (decide (a < length olds)) as [Hlt|Hge].
      * rewrite lookup_app_l in E by exact Hlt.
        apply lookup_app_l_Some. exact E.
      * apply lookup_lt_Some in E as Hlen. rewrite length_app in Hlen. simpl in Hlen.
        assert (a = length olds) as -> by lia.
        rewrite lookup_frame0 in E. simpl in E. injection E as <-. discriminate.
    + assert (a = length olds) as ->.
      { apply elem_of_cons in H as [H|H]; [injection H as _ ->; reflexivity|].
        apply elem_of_cons in H as [H|H]; [injection H as _ ->; reflexivity|].
        inList H. }
      exists an0. split; [|reflexivity]. rewrite Ea, lookup_frame0. reflexivity.
  - rewrite Et.
    change (trace w ++ [?x; ?y; ?z]) with (trace w ++ [x] ++ [y] ++ [z]).
    rewrite !app_assoc.
    repeat apply ordered_snoc; try exact Io.
    + exact I.
    + exact I.
    + rewrite <- app_assoc. apply goodAt_endEvent. exact Hrun.
Qed.

(** ** Every step keeps the invariant *)

Lemma step_rejected_show w :
  microtasks w = [] -> isOpen w = true -> step CallShow w = w.
Proof.
  intros Hq Ho. unfold step, task. mstep. unfold exec at 1.
  rewrite show_rejected by exact Ho. apply checkpoint_idle. exact Hq.
Qed.

Lemma step_rejected_hide w :
  microtasks w = [] -> isOpen w = false -> step CallHide w = w.
Proof.
  intros Hq Ho. unfold step, task. mstep. unfold exec at 1.
  rewrite hide_rejected by exact Ho. apply checkpoint_idle. exact Hq.
Qed.

Lemma Inv_show w : Inv w -> Inv (step CallShow w).
Proof.
  intros I. destruct (isOpen w) eqn:O.
  - rewrite step_rejected_show; [exact I | apply I | exact O].
  - destruct (inv_phase w I) as (olds & Hq & Hi & [Ha Hp Hc | k du Ha Hp Ho Hc]);
      pose proof (inv_queue w I) as Hm;
      destruct w as [o c pf b kb ms st cl ae anims ps mt fr tr];
      cbn [animations promises isOpen isClosed microtasks] in *; subst.
    + rewrite step_show_rest by exact Hq.
      eapply (Inv_started_rest _ _ Entrance); [exact I | | reflexivity ..].
      exists olds. auto.
    + rewrite step_show_moving by exact Hq.
      eapply (Inv_started_moving _ _ olds k du Entrance);
        [exact I | exact Hq | exact Hi | reflexivity ..].
Qed.

Lemma Inv_hide w : Inv w -> Inv (step CallHide w).
Proof.
  intros I. destruct (isOpen w) eqn:O.
  - destruct (inv_phase w I) as (olds & Hq & Hi & [Ha Hp Hc | k du Ha Hp Ho Hc]);
      pose proof (inv_queue w I) as Hm;
      destruct w as [o c pf b kb ms st cl ae anims ps mt fr tr];
      cbn [animations promises isOpen isClosed microtasks] in *; subst.
    + rewrite step_hide_rest by exact Hq.
      eapply (Inv_started_rest _ _ Exit); [exact I | | reflexivity ..].
      exists olds. auto.
    + rewrite step_hide_moving by exact Hq.
      eapply (Inv_started_moving _ _ olds k du Exit);
        [exact I | exact Hq | exact Hi | reflexivity ..].
  - rewrite step_rejected_hide; [exact I | apply I | exact O].
Qed.

Lemma finish_disabled a w :
  (forall an, animations w !! a = Some an -> playState an <> Running) ->
  exec (finish a) w = w.
Proof.
  intros H. unfold exec, finish.
  destruct (animations w !! a) as [an|] eqn:E; [|reflexivity].
  specialize (H an eq_refl). destruct (playState an); [congruence | reflexivity ..].
Qed.

Lemma Inv_finish a w : Inv w -> Inv (step (AnimationFinish a) w).
Proof.
  intros I.
  destruct (inv_phase w I) as (olds & Hq & Hi & [Ha Hp Hc | k du Ha Hp Ho Hc]).
  - unfold step, task. rewrite finish_disabled.
    + rewrite checkpoint_idle; [exact I | apply I].
    + intros an E. rewrite Ha in E. exact (quiet_lookup _ _ _ Hq E).
  - destruct (decide (a = length olds)) as [->|Hne].
    + pose proof (inv_queue w I) as Hm.
      destruct w as [o c pf b kb ms st cl ae anims ps mt fr tr];
        cbn [animations promises isOpen isClosed microtasks] in *; subst.
      rewrite step_finish.
      eapply (Inv_finished _ _ olds k du);
        [exact I | exact Hq | exact Hi | reflexivity ..|].
      cbn [isOpen isClosed]. destruct k; reflexivity.
    + unfold step, task. rewrite finish_disabled.
      * rewrite checkpoint_idle; [exact I | apply I].
      * intros an E. rewrite Ha in E.
        destruct (decide (a < length olds)) as [Hlt|Hge].
        -- rewrite lookup_app_l in E by exact Hlt. exact (quiet_lookup _ _ _ Hq E).
        -- apply lookup_lt_Some in E. rewrite length_app in E. simpl in E. lia.
Qed.

Lemma forEach_frame_same cbs w :
  stage (exec (forEach runFrameCallback cbs) w) = stage w
  /\ promises (exec (forEach runFrameCallback cbs) w) = promises w
  /\ microtasks (exec (forEach runFrameCallback cbs) w) = microtasks w
  /\ isOpen (exec (forEach runFrameCallback cbs) w) = isOpen w
  /\ isClosed (exec (forEach runFrameCallback cbs) w) = isClosed w.
Proof.
  revert w. induction cbs as [|cb cbs IH]; intros w; [repeat split|].
  cbn [forEach]. rewrite exec_bind.
  destruct (IH (exec (runFrameCallback cb) w)) as (H1 & H2 & H3 & H4 & H5).
  rewrite H1, H2, H3, H4, H5. destruct cb. repeat split.
Qed.

(** What each task amounts to. *)
Lemma task_toggle w :
  exec (task CallToggle) w
  = if isOpen w then exec (task CallHide) w else exec (task CallShow) w.
Proof.
  unfold task, toggle. repeat mstep.
  destruct (isOpen w); reflexivity.
Qed.

Lemma task_click d w :
  exec (task (Click d)) w = if d then exec (task CallHide) w else w.
Proof. destruct d; reflexivity. Qed.

Lemma task_clickBackdrop w :
  exec (task ClickBackdrop) w
  = if bool_decide (backdrop w = Some "true") then exec (task CallHide) w else w.
Proof.
  unfold task, _clickBackdropHandler. mstep.
  destruct (bool_decide (backdrop w = Some "true")); reflexivity.
Qed.

Lemma task_keyDown key w :
  exec (task (KeyDown key)) w
  = if bool_decide (keyboard w = Some "true")
       && (bool_decide (key = "Escape") || bool_decide (key = "Esc"))
    then exec (task CallHide) w else w.
Proof.
  unfold task, _keyHandler. mstep.
  destruct (bool_decide (keyboard w = Some "true")
            && (bool_decide (key = "Escape") || bool_decide (key = "Esc")));
    reflexivity.
Qed.

Lemma Inv_idle w w' :
  Inv w ->
  animations w' = animations w -> promises w' = promises w ->
  microtasks w' = microtasks w -> trace w' = trace w ->
  isOpen w' = isOpen w -> isClosed w' = isClosed w ->
  Inv (checkpoint w').
Proof.
  intros I Ea Ep Em Et Eo Ec.
  rewrite checkpoint_idle by (rewrite Em; apply I).
  exact (Inv_same w w' I Ea Ep Em Et Eo Ec).
Qed.

Lemma Inv_step l w : Inv w -> Inv (step l w).
Proof.
  intros I. destruct l.
  - apply Inv_show, I.
  - apply Inv_hide, I.
  - unfold step. rewrite task_toggle.
    destruct (isOpen w); [apply Inv_hide | apply Inv_show]; exact I.
  - unfold step. rewrite task_click.
    destruct dismiss; [apply Inv_hide, I|].
    rewrite checkpoint_idle; [exact I | apply I].
  - unfold step. rewrite task_clickBackdrop.
    destruct (bool_decide _); [apply Inv_hide, I|].
    rewrite checkpoint_idle; [exact I | apply I].
  - unfold step. rewrite task_keyDown.
    destruct (_ && _); [apply Inv_hide, I|].
    rewrite checkpoint_idle; [exact I | apply I].
  - unfold step, task, _focusinHandler. repeat mstep.
    destruct tgt as [e|]; [destruct (_ && _)|];
      apply (Inv_idle w); try exact I; reflexivity.
  - unfold step, task. apply (Inv_idle w); try exact I; reflexivity.
  - unfold step, task. apply (Inv_idle w); try exact I; reflexivity.
  - unfold step, task. apply (Inv_idle w); try exact I; reflexivity.
  - unfold step, task, runFrame. repeat mstep.
    destruct (forEach_frame_same (frameRequests w) (set_frameRequests [] w))
      as (H1 & H2 & H3 & H4 & H5).
    unfold stage in H1. injection H1 as H1 H1'.
    apply (Inv_idle w); try exact I; assumption.
  - apply Inv_finish, I.
Qed.

Lemma reachable_Inv w : reachable w -> Inv w.
Proof.
  induction 1 as [|l w _ IH]; [apply Inv_initial | apply Inv_step, IH].
Qed.

Lemma reachable_run ls w : reachable w -> reachable (run ls w).
Proof.
  revert w. induction ls as [|l ls IH]; intros w H; [exact H|].
  apply IH. constructor. exact H.
Qed.

(** ** What a checkpoint cannot change *)

Lemma fields_gate w w' : fields w' = fields w -> gate w' = gate w.
Proof.
  unfold fields, gate. intros H. injection H as -> _ -> -> -> _ _ _ _ _.
  reflexivity.
Qed.

Lemma runCallback_gate cb w : gate (exec (runCallback cb) w) = gate w.
Proof.
  destruct cb; cbn [runCallback]; try reflexivity.
  - apply fields_gate, resolvePromise_fields.
  - repeat mstep. destruct (prevFocusElement _); reflexivity.
Qed.

Lemma runJob_gate j w : gate (exec (runJob j) w) = gate w.
Proof.
  destruct j as [[cb|] r v d].
  - rewrite runJob_handler.
    change ((resolvePromise d VUndefined ?x).2)
      with (exec (resolvePromise d VUndefined) x).
    rewrite (fields_gate _ _ (resolvePromise_fields _ _ _)), runCallback_gate.
    reflexivity.
  - destruct r.
    + rewrite runJob_reject. apply fields_gate, rejectPromise_fields.
    + rewrite runJob_fulfil. apply fields_gate, resolvePromise_fields.
Qed.

Lemma runMicrotasks_gate n w : gate (runMicrotasks n w) = gate w.
Proof.
  revert w. induction n as [|n IH]; intros w; [reflexivity|].
  cbn [runMicrotasks]. destruct (microtasks w) as [|j q]; [reflexivity|].
  rewrite IH, runJob_gate. reflexivity.
Qed.

Lemma checkpoint_isOpen w : isOpen (checkpoint w) = isOpen w.
Proof.
  pose proof (runMicrotasks_gate (budget w) w) as H.
  unfold gate in H. injection H as H _ _ _. exact H.
Qed.


Lemma hide_isOpen w : isOpen (exec hide w) = false.
Proof.
  unfold exec. destruct (isOpen w) eqn:O.
  - rewrite (hide_accepted w O). cbn [snd].
    change (isOpen (started Exit "hide" ?x)) with (isOpen x).
    pose proof (cancelAnims_fields Container (hidePrologue w)) as F.
    unfold fields in F. injection F as -> _ _ _ _ _ _ _ _ _. reflexivity.
  - rewrite (hide_rejected w O). exact O.
Qed.

Lemma task_hide w : exec (task CallHide) w = exec hide w.
Proof. unfold task. repeat mstep. reflexivity. Qed.

Lemma task_show w : exec (task CallShow) w = exec show w.
Proof. unfold task. repeat mstep. reflexivity. Qed.


(** ** What the animations go through *)

Lemma runCallback_stage_anims cb w :
  animations (exec (runCallback cb) w) = animations w.
Proof.
  destruct cb; cbn [runCallback]; try reflexivity.
  - unfold exec, resolvePromise. destruct (promises w !! p) as [pr|]; [|reflexivity].
    destruct (settlement pr); reflexivity.
  - repeat mstep. destruct (prevFocusElement _); reflexivity.
Qed.

Lemma resolvePromise_anims p v w :
  animations (exec (resolvePromise p v) w) = animations w.
Proof.
  unfold exec, resolvePromise. destruct (promises w !! p) as [pr|]; [|reflexivity].
  destruct (settlement pr); reflexivity.
Qed.

Lemma runJob_anims j w : animations (exec (runJob j) w) = animations w.
Proof.
  destruct j as [[cb|] r v d].
  - rewrite runJob_handler.
    change ((resolvePromise d VUndefined ?x).2)
      with (exec (resolvePromise d VUndefined) x).
    rewrite resolvePromise_anims, runCallback_stage_anims. reflexivity.
  - destruct r.
    + rewrite runJob_reject.
      pose proof (rejectPromise_stage d v w) as H. unfold stage in H.
      injection H as H _. exact H.
    + rewrite runJob_fulfil. apply resolvePromise_anims.
Qed.

Lemma checkpoint_anims w : animations (checkpoint w) = animations w.
Proof.
  unfold checkpoint. generalize (budget w) as n. intros n. revert w.
  induction n as [|n IH]; intros w; [reflexivity|].
  cbn [runMicrotasks]. destruct (microtasks w) as [|j q]; [reflexivity|].
  rewrite IH, runJob_anims. reflexivity.
Qed.

Lemma isRelevant_settled ele an :
  playState an <> Running -> isRelevant ele an = false.
Proof.
  intros H. unfold isRelevant.
  rewrite (bool_decide_eq_false_2 (playState an = Running)) by exact H.
  apply andb_false_r.
Qed.

Lemma show_keeps w a an :
  animations w !! a = Some an -> playState an <> Running ->
  animations (exec show w) !! a = Some an.
Proof.
  intros E P. unfold exec. destruct (isOpen w) eqn:O.
  - rewrite (show_rejected w O). exact E.
  - rewrite (show_accepted w O). cbn [snd].
    cbn [ticked started animations set_frameRequests set_trace set_animations].
    apply lookup_app_l_Some. rewrite cancelAnims_lookup.
    replace (animations (showPrologue w)) with (animations w).
    + rewrite E. cbn. rewrite (isRelevant_settled _ _ P). reflexivity.
    + unfold showPrologue, classList_add. rewrite exec_modify.
      destruct (bool_decide _); reflexivity.
Qed.

Lemma hide_keeps w a an :
  animations w !! a = Some an -> playState an <> Running ->
  animations (exec hide w) !! a = Some an.
Proof.
  intros E P. unfold exec. destruct (isOpen w) eqn:O.
  - rewrite (hide_accepted w O). cbn [snd].
    cbn [started animations set_trace set_animations].
    apply lookup_app_l_Some. rewrite cancelAnims_lookup.
    change (animations (hidePrologue w)) with (animations w).
    rewrite E. cbn. rewrite (isRelevant_settled _ _ P). reflexivity.
  - rewrite (hide_rejected w O). exact E.
Qed.

Lemma finish_keeps w b a an :
  animations w !! a = Some an -> playState an <> Running ->
  animations (exec (finish b) w) !! a = Some an.
Proof.
  intros E P. unfold exec, finish.
  destruct (animations w !! b) as [bn|] eqn:Eb; [|exact E].
  destruct (playState bn) eqn:Pb; try exact E.
  rewrite bind_eq.
  change ((resolvePromise ?p ?v ?x).2) with (exec (resolvePromise p v) x).
  rewrite resolvePromise_anims.
  unfold exec, setPlayState. rewrite Eb. cbn [snd animations set_animations].
  destruct (decide (b = a)) as [->|Hne]; [congruence|].
  rewrite list_lookup_insert_ne by exact Hne. exact E.
Qed.

Lemma step_keeps l w a an :
  animations w !! a = Some an -> playState an <> Running ->
  animations (step l w) !! a = Some an.
Proof.
  intros E P. unfold step. rewrite checkpoint_anims. destruct l.
  - rewrite task_show. exact (show_keeps w a an E P).
  - rewrite task_hide. exact (hide_keeps w a an E P).
  - rewrite task_toggle. destruct (isOpen w).
    + rewrite task_hide. exact (hide_keeps w a an E P).
    + rewrite task_show. exact (show_keeps w a an E P).
  - rewrite task_click. destruct dismiss; [|exact E].
    rewrite task_hide. exact (hide_keeps w a an E P).
  - rewrite task_clickBackdrop. destruct (bool_decide _); [|exact E].
    rewrite task_hide. exact (hide_keeps w a an E P).
  - rewrite task_keyDown. destruct (_ && _); [|exact E].
    rewrite task_hide. exact (hide_keeps w a an E P).
  - unfold task, _focusinHandler. repeat mstep.
    destruct tgt as [e|]; [destruct (_ && _)|]; exact E.
  - exact E.
  - exact E.
  - exact E.
  - unfold task, runFrame. repeat mstep.
    destruct (forEach_frame_same (frameRequests w) (set_frameRequests [] w))
      as (H1 & _). unfold stage in H1. injection H1 as H1 _.
    rewrite H1. exact E.
  - exact (finish_keeps w a0 a an E P).
Qed.

Lemma run_keeps ls w a an :
  animations w !! a = Some an -> playState an <> Running ->
  animations (run ls w) !! a = Some an.
Proof.
  revert w. induction ls as [|l ls IH]; intros w E P; [exact E|].
  cbn [run fold_left]. apply IH; [apply step_keeps; assumption | exact P].
Qed.

(** ** Passive tasks *)

Lemma forEach_frame_prev cbs w :
  prevFocusElement (exec (forEach runFrameCallback cbs) w) = prevFocusElement w.
Proof.
  revert w. induction cbs as [|cb cbs IH]; intros w; [reflexivity|].
  cbn [forEach]. rewrite exec_bind, IH. destruct cb. reflexivity.
Qed.

Lemma passive_core l w :
  microtasks w = [] -> passive l = true -> isFinish l = false ->
  core (step l w) = core w.
Proof.
  intros Hq Hp Hf.
  assert (G : forall w', core w' = core w -> core (checkpoint w') = core w).
  { intros w' H. rewrite checkpoint_idle; [exact H|].
    unfold core in H. injection H as _ _ -> _ _ _ _. exact Hq. }
  unfold step. destruct l; try discriminate; apply G.
  - destruct dismiss; [discriminate | reflexivity].
  - unfold task, _focusinHandler. repeat mstep.
    destruct tgt as [e|]; [destruct (_ && _)|]; reflexivity.
  - reflexivity.
  - reflexivity.
  - reflexivity.
  - unfold task, runFrame. repeat mstep.
    destruct (forEach_frame_same (frameRequests w) (set_frameRequests [] w))
      as (H1 & H2 & H3 & H4 & H5).
    unfold stage in H1. injection H1 as H1 H1'.
    unfold core. rewrite H1, H1', H2, H3, H4, H5, forEach_frame_prev. reflexivity.
Qed.

Lemma passive_run_core ls w :
  microtasks w = [] ->
  Forall (fun l => passive l = true /\ isFinish l = false) ls ->
  core (run ls w) = core w.
Proof.
  revert w. induction ls as [|l ls IH]; intros w Hq H; [reflexivity|].
  apply Forall_cons in H as [[Hp Hf] H].
  cbn [run fold_left].
  pose proof (passive_core l w Hq Hp Hf) as C.
  rewrite <- C. apply IH; [|exact H].
  unfold core in C. injection C as _ _ -> _ _ _ _. exact Hq.
Qed.

(** ** An animation reaching its end, on a reachable page *)


(** ** Consequences of the invariant *)


Lemma Inv_one_running w a an :
  Inv w -> animations w !! a = Some an -> playState an = Running ->
  exists olds du,
    quiet olds /\ indexed olds /\ a = length olds
    /\ an = mkAnimation Container (keyframes an) du Running (length (store 0 olds))
    /\ animations w = olds ++ [an]
    /\ promises w
       = store 0 olds ++
         runningBlock (length (store 0 olds)) (length olds)
           (continuation (keyframes an))
    /\ isOpen w = bool_decide (keyframes an = Entrance)
    /\ isClosed w = false.
Proof.
  intros I E P.
  destruct (inv_phase w I) as (olds & Hq & Hi & [Ha Hp Hc | k du Ha Hp Ho Hc]).
  - rewrite Ha in E. destruct (quiet_lookup _ _ _ Hq E P).
  - rewrite Ha in E.
    destruct (decide (a < length olds)) as [Hlt|Hge].
    + rewrite lookup_app_l in E by exact Hlt. destruct (quiet_lookup _ _ _ Hq E P).
    + apply lookup_lt_Some in E as Hlen. rewrite length_app in Hlen. simpl in Hlen.
      assert (a = length olds) as -> by lia.
      rewrite lookup_frame0 in E. simpl in E. injection E as <-.
      exists olds, du. cbn [keyframes].
      do 7 (split; [first [assumption | reflexivity]|]). assumption.
Qed.




Lemma store_lookup l i a an k :
  l !! a = Some an -> k < 5 ->
  store i l !! (5 * a + k) = block (5 * (i + a)) (i + a) an !! k.
Proof.
  revert i a. induction l as [|x l IH]; intros i a E Hk; [discriminate|].
  cbn [store]. destruct a as [|a].
  - cbn in E. injection E as ->. rewrite Nat.add_0_r.
    rewrite lookup_app_l by (rewrite length_block; lia). reflexivity.
  - cbn in E.
    rewrite lookup_app_r by (rewrite length_block; lia).
    rewrite length_block.
    replace (5 * S a + k - 5) with (5 * a + k) by lia.
    rewrite (IH (S i) a E Hk).
    replace (S i + a) with (i + S a) by lia. reflexivity.
Qed.

(** ** From [show] to [hidden] *)






(** * The claims *)

(** ** C1: [show] *)



(** ** C2: [hide] *)

Lemma reachable_closing : reachable closing.
Proof. apply reachable_run, reachable_initial. Qed.



(** ** C9: [hide] while closing *)

(** C9. In the closing state, with both flags false, [hide] returns
    false and changes nothing; as a task it leaves a reachable page
    exactly as it was, so the exit animation is not restarted and no
    further [hide] event is dispatched. *)
Theorem C9_hide_while_closing (w : World) :
  reachable w -> isOpen w = false -> isClosed w = false ->
  hide w = (false, w) /\ step CallHide w = w.
Proof.
  intros R O C. split; [exact (hide_rejected w O)|].
  apply step_rejected_hide; [apply (reachable_Inv w R) | exact O].
Qed.

Lemma C9_witness :
  hide closing = (false, closing) /\ step CallHide closing = closing.
Proof.
  apply (C9_hide_while_closing closing);
    [exact reachable_closing | reflexivity | reflexivity].
Defined.

(** ** C7: dismissal by backdrop click and by Escape *)

(** C7. On an open modal, a backdrop click closes it exactly when the
    [backdrop] property is the string [true], and a press of Escape
    (reported as [Escape] or [Esc]) closes it exactly when the
    [keyboard] property is the string [true].  Any other value, and no
    value at all, leaves the modal open. *)
Theorem C7_dismissal (w : World) (key : string) :
  isOpen w = true ->
  key = "Escape" \/ key = "Esc" ->
  (isOpen (step ClickBackdrop w) = false <-> backdrop w = Some "true")
  /\ (isOpen (step (KeyDown key) w) = false <-> keyboard w = Some "true").
Proof.
  intros O K. unfold step. rewrite !checkpoint_isOpen.
  rewrite task_clickBackdrop, task_keyDown.
  assert (Hk : bool_decide (key = "Escape") || bool_decide (key = "Esc") = true).
  { destruct K as [-> | ->]; reflexivity. }
  rewrite Hk, andb_true_r. split.
  - destruct (decide (backdrop w = Some "true")) as [E|E].
    + rewrite bool_decide_eq_true_2 by exact E.
      rewrite task_hide, hide_isOpen. tauto.
    + rewrite bool_decide_eq_false_2 by exact E.
      rewrite O. split; [discriminate | intros H; contradiction].
  - destruct (decide (keyboard w = Some "true")) as [E|E].
    + rewrite bool_decide_eq_true_2 by exact E.
      rewrite task_hide, hide_isOpen. tauto.
    + rewrite bool_decide_eq_false_2 by exact E.
      rewrite O. split; [discriminate | intros H; contradiction].
Qed.

Lemma C7_witness :
  (isOpen (step ClickBackdrop (step CallShow initial)) = false
   <-> backdrop (step CallShow initial) = Some "true")
  /\ (isOpen (step (KeyDown "Escape") (step CallShow initial)) = false
      <-> keyboard (step CallShow initial) = Some "true").
Proof.
  apply (C7_dismissal (step CallShow initial) "Escape");
    [reflexivity | left; reflexivity].
Defined.

(** ** C3: the two flags *)





(** ** C5: order of events and animations *)

(** C5. In the trace of a reachable page, every start of an animation
    comes immediately after the dispatch of its [show] (entrance) or
    [hide] (exit) event; and every [shown] (resp. [hidden]) event comes
    immediately after the run of the finish callback of an entrance
    (resp. exit) animation started earlier, followed by the run of the
    continuation chained on it.  Within one accepted call of [show] or
    [hide], on any page, the event and the start of the animation are
    the last two things observed, in that order. *)
Theorem C5_order (w : World) (pre post : list Obs) (o : Obs) :
  reachable w ->
  trace w = pre ++ o :: post ->
  (forall a k, o = ObsAnimate a k ->
     exists pre', pre = pre' ++ [ObsDispatch (createEvent (startName k))])
  /\ (forall k, o = ObsDispatch (createEvent (endName k)) ->
        exists pre' a p,
          pre = pre' ++ [ObsCallback (CbResolve p a) (VAnimation a);
                         ObsCallback (continuation k) (VAnimation a)]
          /\ ObsAnimate a k ∈ pre')
  /\ (if isOpen w
      then exists t a, trace (exec hide w)
                       = t ++ [ObsDispatch (createEvent "hide"); ObsAnimate a Exit]
      else exists t a, trace (exec show w)
                       = t ++ [ObsDispatch (createEvent "show"); ObsAnimate a Entrance]).
Proof.
  intros R E. pose proof (inv_ordered w (reachable_Inv w R) pre o post E) as G.
  split; [|split].
  - intros a k ->. exact G.
  - intros k ->. exact (G k eq_refl).
  - unfold exec. destruct (isOpen w) eqn:O.
    + rewrite (hide_accepted w O). cbn [snd]. eexists _, _. reflexivity.
    + rewrite (show_accepted w O). cbn [snd]. eexists _, _. reflexivity.
Qed.

Lemma C5_witness :
  let w := run [CallShow; AnimationFinish 0] initial in
  let pre := [ObsDispatch (createEvent "show"); ObsAnimate 0 Entrance;
              ObsCallback (CbResolve 1 0) (VAnimation 0);
              ObsCallback CbShown (VAnimation 0)] in
  let o := ObsDispatch (createEvent "shown") in
  (forall a k, o = ObsAnimate a k ->
     exists pre', pre = pre' ++ [ObsDispatch (createEvent (startName k))])
  /\ (forall k, o = ObsDispatch (createEvent (endName k)) ->
        exists pre' a p,
          pre = pre' ++ [ObsCallback (CbResolve p a) (VAnimation a);
                         ObsCallback (continuation k) (VAnimation a)]
          /\ ObsAnimate a k ∈ pre')
  /\ (if isOpen w
      then exists t a, trace (exec hide w)
                       = t ++ [ObsDispatch (createEvent "hide"); ObsAnimate a Exit]
      else exists t a, trace (exec show w)
                       = t ++ [ObsDispatch (createEvent "show"); ObsAnimate a Entrance]).
Proof.
  apply (C5_order (run [CallShow; AnimationFinish 0] initial) _ [] _);
    [apply reachable_run, reachable_initial | reflexivity].
Defined.

(** ** C6: the end of the exit animation *)



(** ** C8: [hide] during the entrance animation *)



(** ** C10: a cancelled entrance animation *)

Lemma idle_outer_pending u a an :
  Inv u -> animations u !! a = Some an -> playState an = Idle ->
  exists pr, promises u !! (finished an + 1) = Some pr /\ settlement pr = Pending.
Proof.
  intros I E P.
  assert (G : forall olds, indexed olds -> olds !! a = Some an ->
            exists pr, store 0 olds !! (finished an + 1) = Some pr
                       /\ settlement pr = Pending).
  { intros olds Hi Eo. destruct (Hi a an Eo) as [-> _].
    rewrite (store_lookup olds 0 a an 1 Eo) by lia.
    unfold block. rewrite P. cbn. eexists. split; reflexivity. }
  destruct (inv_phase u I) as (olds & Hq & Hi & [Ha Hp Hc | k du Ha Hp Ho Hc]).
  - rewrite Hp. apply G; [exact Hi | rewrite <- Ha; exact E].
  - rewrite Ha in E.
    destruct (decide (a < length olds)) as [Hlt|Hge].
    + rewrite lookup_app_l in E by exact Hlt.
      destruct (G olds Hi E) as (pr & Epr & S).
      exists pr. split; [|exact S]. rewrite Hp. apply lookup_app_l_Some. exact Epr.
    + apply lookup_lt_Some in E as Hlen. rewrite length_app in Hlen. simpl in Hlen.
      assert (a = length olds) as -> by lia.
      rewrite lookup_frame0 in E. simpl in E. injection E as <-. discriminate.
Qed.

(** C10. Once an entrance animation has been cancelled, on a reachable
    page, then whatever tasks run afterwards: the animation stays
    cancelled; the promise [showAnim] returned for it, the one
    allocated right after the animation's [finished], is still pending;
    its continuation has not run; and every [shown] event in the trace
    follows the finish callback and the continuation of another
    animation. *)
Theorem C10_never_shown (w : World) (a : nat) (an : Animation) (ls : list Label) :
  reachable w ->
  animations w !! a = Some an ->
  keyframes an = Entrance ->
  playState an = Idle ->
  let w' := run ls w in
  animations w' !! a = Some an
  /\ (exists pr, promises w' !! (finished an + 1) = Some pr
                 /\ settlement pr = Pending)
  /\ (ObsCallback CbShown (VAnimation a) ∉ trace w')
  /\ (forall pre post,
        trace w' = pre ++ ObsDispatch (createEvent "shown") :: post ->
        exists pre' a' p,
          a' <> a
          /\ pre = pre' ++ [ObsCallback (CbResolve p a') (VAnimation a');
                            ObsCallback CbShown (VAnimation a')])
  /\ (forall u ele msec,
        exists an0,
          animations (exec (showAnim ele msec) u) !! length (animations u)
          = Some an0
          /\ result (showAnim ele msec) u = finished an0 + 1).
Proof.
  intros R E K P w'.
  assert (E' : animations w' !! a = Some an).
  { apply run_keeps; [exact E | rewrite P; discriminate]. }
  pose proof (reachable_Inv w' (reachable_run ls w R)) as I.
  assert (N : ObsCallback CbShown (VAnimation a) ∉ trace w').
  { intros H. destruct (inv_callbacks w' I _ _ H) as (an' & Ea & Pa).
    rewrite E' in Ea. injection Ea as <-. rewrite P in Pa. discriminate. }
  split; [exact E'|].
  split; [exact (idle_outer_pending w' a an I E' P)|].
  split; [exact N|].
  split.
  - intros pre post Et.
    destruct (inv_ordered w' I pre _ post Et Entrance eq_refl)
      as (pre' & a' & p & -> & _).
    exists pre', a', p. split; [|reflexivity].
    intros ->. apply N. rewrite Et.
    apply elem_of_app. left. apply elem_of_app. right.
    apply elem_of_cons. right. apply elem_of_cons. left. reflexivity.
  - intros u ele msec.
    destruct u as [o c pf b kb ms st cl ae anims ps mt fr tr].
    pose proof (anim_eq ele Entrance msec o c pf b kb ms st cl ae anims ps mt fr tr)
      as Q.
    cbv beta iota in Q. unfold exec, result. rewrite Q.
    cbn [fst snd animations]. rewrite lookup_frame0.
    eexists. split; reflexivity.
Qed.

Lemma C10_witness :
  let an := mkAnimation Container Entrance 300 Idle 0 in
  let w' := run [AnimationFinish 1; CallShow; AnimationFinish 2] closing in
  animations w' !! 0 = Some an
  /\ (exists pr, promises w' !! (finished an + 1) = Some pr
                 /\ settlement pr = Pending)
  /\ (ObsCallback CbShown (VAnimation 0) ∉ trace w')
  /\ (forall pre post,
        trace w' = pre ++ ObsDispatch (createEvent "shown") :: post ->
        exists pre' a' p,
          a' <> 0
          /\ pre = pre' ++ [ObsCallback (CbResolve p a') (VAnimation a');
                            ObsCallback CbShown (VAnimation a')])
  /\ (forall u ele msec,
        exists an0,
          animations (exec (showAnim ele msec) u) !! length (animations u)
          = Some an0
          /\ result (showAnim ele msec) u = finished an0 + 1).
Proof.
  apply (C10_never_shown closing 0 (mkAnimation Container Entrance 300 Idle 0)
           [AnimationFinish 1; CallShow; AnimationFinish 2]).
  - exact reachable_closing.
  - reflexivity.
  - reflexivity.
  - reflexivity.
Defined.

(** ** C4: the promise returned by [showAnim] and [hideAnim] *)

(** The end of the animation, with nothing chained on the returned
    promise. *)
Lemma finish_alone o c pf b kb ms st cl ae anims ps ele k msec fr tr :
  step (AnimationFinish (length anims))
    (mkWorld o c pf b kb ms st cl ae
       (anims ++ [mkAnimation ele k msec Running (length ps)])
       (ps ++ [ mkPromise Pending
                  [mkReaction (Some (CbResolve (length ps + 1) (length anims)))
                     None (length ps + 2)] true;
                mkPromise Pending [] false;
                mkPromise Pending
                  [mkReaction None (Some CbNoop) (length ps + 3)] true;
                mkPromise Pending [] false ])
       [] fr tr)
  = mkWorld o c pf b kb ms st cl ae
      (anims ++ [mkAnimation ele k msec Finished (length ps)])
      (ps ++ [ mkPromise (Fulfilled (VAnimation (length anims))) [] true;
               mkPromise (Fulfilled (VAnimation (length anims))) [] false;
               mkPromise (Fulfilled VUndefined) [] true;
               mkPromise (Fulfilled VUndefined) [] false ])
      [] fr
      (tr ++ [ObsCallback (CbResolve (length ps + 1) (length anims))
                (VAnimation (length anims))]).
Proof.
  unfold step, task, finish. unfold exec at 1. cbn [animations].
  rewrite lookup_frame0. cbn [lookup list_lookup playState finished].
  mnext. rewrite setPlayState_last. lred. cbn [target keyframes duration finished].
  rewrite resolvePromise_frame0. lred. jred.
  match goal with |- checkpoint ?w = ?r => assert (R : runMicrotasks 2 w = r) end.
  { cbn [app].
    rewrite runMicrotasks_cons, runJob_handler. wnorm.
    unfold runCallback at 1. unfold exec at 1.
    rewrite resolvePromise_frame. lred. jred.
    rewrite resolvePromise_frame. lred. jred. cbn [app].
    rewrite runMicrotasks_cons, runJob_fulfil, resolvePromise_frame. lred.
    rewrite runMicrotasks_nil. reflexivity. }
  rewrite (checkpoint_fuel 2); rewrite R; reflexivity.
Qed.

(** The cancellation of the animation, and the checkpoint after it. *)
Lemma cancel_alone o c pf b kb ms st cl ae anims ps ele k msec fr tr :
  checkpoint
    (exec (cancel (length anims))
       (mkWorld o c pf b kb ms st cl ae
          (anims ++ [mkAnimation ele k msec Running (length ps)])
          (ps ++ [ mkPromise Pending
                     [mkReaction (Some (CbResolve (length ps + 1) (length anims)))
                        None (length ps + 2)] true;
                   mkPromise Pending [] false;
                   mkPromise Pending
                     [mkReaction None (Some CbNoop) (length ps + 3)] true;
                   mkPromise Pending [] false ])
          [] fr tr))
  = mkWorld o c pf b kb ms st cl ae
      (anims ++ [mkAnimation ele k msec Idle (length ps)])
      (ps ++ [ mkPromise (Rejected VAbortError) [] true;
               mkPromise Pending [] false;
               mkPromise (Rejected VAbortError) [] true;
               mkPromise (Fulfilled VUndefined) [] false ])
      [] fr
      (tr ++ [ObsCancel (length anims); ObsCallback CbNoop VAbortError]).
Proof.
  unfold exec, cancel. cbn [animations]. rewrite lookup_frame0.
  cbn [lookup list_lookup playState finished].
  mnext. rewrite rejectPromise_frame0. lred. jred.
  mnext. rewrite markHandled_frame0. lred.
  mnext. rewrite setPlayState_last. lred. cbn [target keyframes duration finished].
  unfold observe, modify. cbn [snd]. wnorm. cbn [app].
  change (ps ++ ?a :: ?b :: ?c :: ?d :: ?post)
    with (ps ++ [a; b; c; d] ++ post).
  rewrite checkpoint_abort. rewrite <- app_assoc. reflexivity.
Qed.

(** C4, as stated, fails: after a cancellation the promise returned by
    [showAnim] is not fulfilled. *)
Lemma C4_pending_on_abort : ~ fulfilledOnAbort Container 300 initial.
Proof.
  unfold fulfilledOnAbort. intros (pr & v & H & S).
  vm_compute in H. injection H as <-. discriminate S.
Qed.

(** C4, amended. For every element, duration and page with an empty
    microtask queue, [showAnim] (resp. [hideAnim]) starts a running
    animation and returns a pending promise.  When the animation reaches
    its end, that promise is fulfilled with the animation.  When the
    animation is cancelled instead, the checkpoint that follows leaves
    the returned promise pending: the rejection of [finished] passes to
    the promise derived by [.then], both rejected promises count as
    handled, the promise derived by [.catch] is fulfilled with
    [undefined], and nothing is left in the queue. *)
Theorem C4_settlement (w : World) (ele : Element) (msec : N) (k : Keyframes) :
  microtasks w = [] ->
  let m := match k with
           | Entrance => showAnim ele msec
           | Exit => hideAnim ele msec
           end in
  let p := result m w in
  let w1 := exec m w in
  let a := length (animations w) in
  let f := length (promises w) in
  animations w1 !! a = Some (mkAnimation ele k msec Running f)
  /\ promises w1 !! p = Some (mkPromise Pending [] false)
  /\ promises (step (AnimationFinish a) w1) !! p
     = Some (mkPromise (Fulfilled (VAnimation a)) [] false)
  /\ (let w2 := checkpoint (exec (cancel a) w1) in
      promises w2 !! p = Some (mkPromise Pending [] false)
      /\ promises w2 !! f = Some (mkPromise (Rejected VAbortError) [] true)
      /\ promises w2 !! (f + 2) = Some (mkPromise (Rejected VAbortError) [] true)
      /\ promises w2 !! (f + 3) = Some (mkPromise (Fulfilled VUndefined) [] false)
      /\ microtasks w2 = []
      /\ trace w2 = trace w1 ++ [ObsCancel a; ObsCallback CbNoop VAbortError]).
Proof.
  intros Hm m p w1 a f.
  destruct w as [o c pf b kb ms st cl ae anims ps mt fr tr].
  cbn [microtasks] in Hm. subst mt.
  pose proof (anim_eq ele k msec o c pf b kb ms st cl ae anims ps [] fr tr) as Q.
  unfold p, w1, a, f, result, exec, m. rewrite Q.
  cbn [fst snd animations promises trace].
  rewrite finish_alone.
  pose proof (cancel_alone o c pf b kb ms st cl ae anims ps ele k msec fr
                (tr ++ [ObsAnimate (length anims) k])) as C.
  unfold exec in C. rewrite C.
  cbn [animations promises microtasks trace].
  rewrite ?lookup_frame0, ?lookup_frame. cbn [lookup list_lookup].
  repeat split.
Qed.

Lemma C4_witness :
  let m := showAnim Container 300 in
  let p := result m initial in
  let w1 := exec m initial in
  let a := length (animations initial) in
  let f := length (promises initial) in
  animations w1 !! a = Some (mkAnimation Container Entrance 300 Running f)
  /\ promises w1 !! p = Some (mkPromise Pending [] false)
  /\ promises (step (AnimationFinish a) w1) !! p
     = Some (mkPromise (Fulfilled (VAnimation a)) [] false)
  /\ (let w2 := checkpoint (exec (cancel a) w1) in
      promises w2 !! p = Some (mkPromise Pending [] false)
      /\ promises w2 !! f = Some (mkPromise (Rejected VAbortError) [] true)
      /\ promises w2 !! (f + 2) = Some (mkPromise (Rejected VAbortError) [] true)
      /\ promises w2 !! (f + 3) = Some (mkPromise (Fulfilled VUndefined) [] false)
      /\ microtasks w2 = []
      /\ trace w2 = trace w1 ++ [ObsCancel a; ObsCallback CbNoop VAbortError]).
Proof. apply (C4_settlement initial Container 300 Entrance). reflexivity. Defined.

(** * Further properties *)

(** ** [toggle] *)



Lemma show_isOpen w : isOpen (exec show w) = true.
Proof.
  unfold exec. destruct (isOpen w) eqn:O.
  - rewrite (show_rejected w O). exact O.
  - rewrite (show_accepted w O). cbn [snd].
    change (isOpen (ticked (started ?k ?n ?x))) with (isOpen x).
    pose proof (cancelAnims_fields Container (showPrologue w)) as F.
    unfold fields in F. injection F as -> _ _ _ _ _ _ _ _ _.
    unfold showPrologue, classList_add. rewrite exec_modify.
    destruct (bool_decide _); reflexivity.
Qed.


(** ** Clicks and keys *)

(** X2. A click on an element marked [data-dismiss='modal'] closes an
    open modal whatever the [backdrop] and [keyboard] properties hold;
    a click on any other element runs no code of the element at all. *)
Theorem X2_click (w : World) (b kb : option string) :
  isOpen w = true ->
  isOpen (step (Click true) (set_keyboard kb (set_backdrop b w))) = false
  /\ exec (task (Click false)) w = w.
Proof.
  intros O. split; [|reflexivity].
  unfold step. rewrite checkpoint_isOpen, task_click, task_hide.
  apply hide_isOpen.
Qed.

Lemma X2_witness :
  isOpen (step (Click true)
            (set_keyboard (Some "false")
               (set_backdrop None (step CallShow initial)))) = false
  /\ exec (task (Click false)) (step CallShow initial) = step CallShow initial.
Proof.
  apply (X2_click (step CallShow initial) None (Some "false")). reflexivity.
Defined.

(** X3. A key other than [Escape] and [Esc] never reaches [hide]: the
    handler leaves the page as it is, whatever [keyboard] holds.  The
    comparison is exact, so [escape] in lower case is such a key. *)
Theorem X3_other_keys (w : World) (key : string) :
  key <> "Escape" -> key <> "Esc" ->
  exec (task (KeyDown key)) w = w.
Proof.
  intros H1 H2. rewrite task_keyDown.
  rewrite (bool_decide_eq_false_2 (key = "Escape")) by exact H1.
  rewrite (bool_decide_eq_false_2 (key = "Esc")) by exact H2.
  rewrite andb_false_r. reflexivity.
Qed.

Lemma X3_witness :
  exec (task (KeyDown "escape")) (step CallShow initial) = step CallShow initial.
Proof.
  apply (X3_other_keys (step CallShow initial) "escape"); discriminate.
Defined.

(** ** Focus containment *)

(** X4. When the focus moves to an element, on a page with an empty
    microtask queue: if the modal is open and the element is outside
    it, the focus is forced onto the modal; otherwise the focus stays
    where it went, also while the modal is closing.  So whenever
    [isOpen] holds the focus ends up inside the modal.  Nothing else of
    the page changes. *)
Theorem X4_focus_containment (w : World) (e : Element) :
  microtasks w = [] ->
  let w' := step (FocusIn (Some e)) w in
  activeElement w'
  = (if isOpen w && negb (contains e) then Some Host else Some e)
  /\ (isOpen w = true ->
      exists e', activeElement w' = Some e' /\ contains e' = true)
  /\ set_activeElement (activeElement w) w' = w.
Proof.
  intros Hq w'.
  assert (E : w' = set_activeElement
                     (if isOpen w && negb (contains e) then Some Host else Some e) w).
  { unfold w', step, task, _focusinHandler. repeat mstep.
    cbn [isOpen set_activeElement].
    destruct (isOpen w && negb (contains e));
      (rewrite checkpoint_idle; [|exact Hq]); destruct w; reflexivity. }
  rewrite E. cbn [activeElement set_activeElement].
  split; [reflexivity|]. split.
  - intros O. rewrite O. cbn [andb].
    destruct (contains e) eqn:C; cbn [negb]; eexists; split;
      first [reflexivity | exact C].
  - destruct w. reflexivity.
Qed.

Lemma X4_witness :
  let w := step CallShow initial in
  let w' := step (FocusIn (Some (Elsewhere 3))) w in
  activeElement w'
  = (if isOpen w && negb (contains (Elsewhere 3)) then Some Host
     else Some (Elsewhere 3))
  /\ (isOpen w = true ->
      exists e', activeElement w' = Some e' /\ contains e' = true)
  /\ set_activeElement (activeElement w) w' = w.
Proof.
  apply (X4_focus_containment (step CallShow initial) (Elsewhere 3)).
  reflexivity.
Defined.

(** ** The frame callback of [show] *)

Lemma forEach_frame_focus cbs w :
  cbs <> [] ->
  activeElement (exec (forEach runFrameCallback cbs) w) = Some Host
  /\ scrollTop (exec (forEach runFrameCallback cbs) w) = 0%Z.
Proof.
  revert w. induction cbs as [|cb cbs IH]; intros w H; [contradiction|].
  cbn [forEach]. rewrite exec_bind. destruct cbs as [|cb' cbs].
  - destruct cb. split; reflexivity.
  - apply IH. discriminate.
Qed.

Lemma forEach_frame_requests cbs w :
  frameRequests (exec (forEach runFrameCallback cbs) w) = frameRequests w.
Proof.
  revert w. induction cbs as [|cb cbs IH]; intros w; [reflexivity|].
  cbn [forEach]. rewrite exec_bind, IH. destruct cb. reflexivity.
Qed.

Lemma show_frameRequests w :
  frameRequests (exec show w)
  = if isOpen w then frameRequests w else frameRequests w ++ [FrameFocus].
Proof.
  unfold exec. destruct (isOpen w) eqn:O.
  - rewrite (show_rejected w O). reflexivity.
  - rewrite (show_accepted w O). cbn [snd].
    change (frameRequests (ticked (started ?k ?n ?x)))
      with (frameRequests x ++ [FrameFocus]).
    pose proof (cancelAnims_fields Container (showPrologue w)) as F.
    unfold fields in F. injection F as _ _ _ _ _ _ _ _ _ ->.
    unfold showPrologue, classList_add. rewrite exec_modify.
    destruct (bool_decide _); reflexivity.
Qed.

(** X5. An accepted [show] requests exactly one animation frame, a
    refused one none.  On a page with an empty microtask queue, an
    animation frame empties the request queue and, if there was any
    request, scrolls the modal to the top and puts the focus on it,
    without looking at [isOpen]: the callback also runs when [hide] was
    called in between.  The flags, the animations, the promises and the
    trace are left alone. *)
Theorem X5_frame (w : World) :
  microtasks w = [] ->
  let w' := step AnimationFrame w in
  frameRequests (exec show w)
  = (if isOpen w then frameRequests w else frameRequests w ++ [FrameFocus])
  /\ frameRequests w' = []
  /\ (frameRequests w <> [] ->
      activeElement w' = Some Host /\ scrollTop w' = 0%Z)
  /\ (frameRequests w = [] -> w' = w)
  /\ core w' = core w.
Proof.
  intros Hq w'.
  pose proof (passive_core AnimationFrame w Hq eq_refl eq_refl) as C.
  fold w' in C.
  assert (E : w' = exec (forEach runFrameCallback (frameRequests w))
                     (set_frameRequests [] w)).
  { unfold w', step, task, runFrame. repeat mstep.
    apply checkpoint_idle.
    destruct (forEach_frame_same (frameRequests w) (set_frameRequests [] w))
      as (_ & _ & -> & _). exact Hq. }
  split; [apply show_frameRequests|].
  split; [rewrite E; apply forEach_frame_requests|].
  split; [intros H; rewrite E; apply forEach_frame_focus; exact H|].
  split; [|exact C].
  intros H. rewrite E, H. cbn [forEach]. rewrite exec_ret.
  destruct w. cbn in H. subst. reflexivity.
Qed.

Lemma X5_witness :
  let w := closing in
  let w' := step AnimationFrame w in
  frameRequests (exec show w)
  = (if isOpen w then frameRequests w else frameRequests w ++ [FrameFocus])
  /\ frameRequests w' = []
  /\ (frameRequests w <> [] ->
      activeElement w' = Some Host /\ scrollTop w' = 0%Z)
  /\ (frameRequests w = [] -> w' = w)
  /\ core w' = core w.
Proof. apply (X5_frame closing). reflexivity. Defined.

(** ** The marker class of the body *)

Lemma filter_absent (c : string) (l : list string) :
  c ∉ l -> filter (fun x => x <> c) l = l.
Proof.
  intros H. induction l as [|x l IH]; [reflexivity|].
  rewrite filter_cons. destruct (decide (x <> c)) as [Hx|Hx].
  - f_equal. apply IH. intros Hin. apply H. apply elem_of_cons. auto.
  - exfalso. apply H. apply elem_of_cons. left.
    destruct (decide (x = c)) as [->|]; [reflexivity | contradiction].
Qed.

Lemma show_classList w :
  isOpen w = false ->
  classList (exec show w)
  = if bool_decide ("modal-open" ∈ classList w) then classList w
    else classList w ++ ["modal-open"].
Proof.
  intros O. unfold exec. rewrite (show_accepted w O). cbn [snd].
  change (classList (ticked (started ?k ?n ?x))) with (classList x).
  pose proof (cancelAnims_fields Container (showPrologue w)) as F.
  unfold fields in F. injection F as _ _ _ _ _ _ _ -> _ _.
  unfold showPrologue, classList_add. rewrite exec_modify.
  cbn [classList set_isClosed set_isOpen set_prevFocusElement].
  destruct (bool_decide _); reflexivity.
Qed.

Lemma hide_classList w :
  isOpen w = true ->
  classList (exec hide w) = filter (fun x => x <> "modal-open") (classList w).
Proof.
  intros O. unfold exec. rewrite (hide_accepted w O). cbn [snd].
  change (classList (started ?k ?n ?x)) with (classList x).
  pose proof (cancelAnims_fields Container (hidePrologue w)) as F.
  unfold fields in F. injection F as _ _ _ _ _ _ _ -> _ _.
  reflexivity.
Qed.

(** X6. [show] followed by [hide] leaves the body without the
    [modal-open] class and with its other classes in their order: the
    class list is the one before [show] with [modal-open] filtered
    out.  So it is restored exactly when the body did not carry the
    class before, and when it did (set by other code) the class is
    removed all the same.  [show] never adds the class twice. *)
Theorem X6_marker_class (w : World) :
  isOpen w = false ->
  classList (exec hide (exec show w))
  = filter (fun x => x <> "modal-open") (classList w)
  /\ ("modal-open" ∉ classList w ->
      classList (exec hide (exec show w)) = classList w)
  /\ (NoDup (classList w) -> NoDup (classList (exec show w))).
Proof.
  intros O.
  assert (E : classList (exec hide (exec show w))
              = filter (fun x => x <> "modal-open") (classList w)).
  { rewrite (hide_classList _ (show_isOpen w)), (show_classList w O).
    destruct (decide ("modal-open" ∈ classList w)) as [Hin|Hnin].
    - rewrite bool_decide_eq_true_2 by exact Hin. reflexivity.
    - rewrite bool_decide_eq_false_2 by exact Hnin.
      rewrite filter_app, filter_cons.
      destruct (decide ("modal-open" <> "modal-open")); [contradiction|].
      rewrite filter_nil, app_nil_r. reflexivity. }
  split; [exact E|]. split.
  - intros Hnin. rewrite E. apply filter_absent. exact Hnin.
  - intros N. rewrite (show_classList w O).
    destruct (decide ("modal-open" ∈ classList w)) as [Hin|Hnin].
    + rewrite bool_decide_eq_true_2 by exact Hin. exact N.
    + rewrite bool_decide_eq_false_2 by exact Hnin.
      apply NoDup_app. split; [exact N|]. split.
      * intros x Hx Hx'. apply elem_of_cons in Hx' as [->|Hx']; [contradiction | inversion Hx'].
      * apply NoDup_singleton.
Qed.

Lemma X6_witness :
  let w := set_classList ["page"; "modal-open"; "dark"] initial in
  classList (exec hide (exec show w))
  = filter (fun x => x <> "modal-open") (classList w)
  /\ ("modal-open" ∉ classList w ->
      classList (exec hide (exec show w)) = classList w)
  /\ (NoDup (classList w) -> NoDup (classList (exec show w))).
Proof.
  apply (X6_marker_class (set_classList ["page"; "modal-open"; "dark"] initial)).
  reflexivity.
Defined.

(** ** [cancelAnims] *)

Lemma relevantFrom_none ele i l :
  (forall a an, l !! a = Some an -> isRelevant ele an = false) ->
  relevantFrom ele i l = [].
Proof.
  revert i. induction l as [|x l IH]; intros i H; [reflexivity|].
  cbn [relevantFrom]. rewrite (H 0 x eq_refl).
  apply IH. intros a an E. exact (H (S a) an E).
Qed.

(** X7. After [cancelAnims(ele)], on any page, [ele.getAnimations()] is
    empty; the animations of [ele] that were running are idle, every
    other animation (finished, already idle, or of another element) is
    as it was, no animation is added or dropped, and a second
    [cancelAnims(ele)] changes nothing. *)
Theorem X7_cancelAnims (ele : Element) (w : World) :
  let w' := exec (cancelAnims ele) w in
  result (getAnimations ele) w' = []
  /\ (forall a an, animations w !! a = Some an ->
        animations w' !! a
        = Some (if bool_decide (target an = ele)
                   && bool_decide (playState an = Running)
                then idle an else an))
  /\ length (animations w') = length (animations w)
  /\ exec (cancelAnims ele) w' = w'.
Proof.
  intros w'.
  assert (N : forall a an, animations w' !! a = Some an ->
              isRelevant ele an = false).
  { intros a an E. unfold w' in E. rewrite cancelAnims_lookup in E.
    destruct (animations w !! a) as [x|]; [|discriminate].
    cbn in E. injection E as <-.
    destruct (isRelevant ele x) eqn:R; [|exact R].
    unfold isRelevant. cbn [idle playState].
    rewrite (bool_decide_eq_false_2 (Idle = Running)) by discriminate.
    apply andb_false_r. }
  assert (G : result (getAnimations ele) w' = []).
  { change (result (getAnimations ele) w')
      with (relevantFrom ele 0 (animations w')).
    apply relevantFrom_none. exact N. }
  split; [exact G|]. split; [|split].
  - intros a an E. unfold w'. rewrite cancelAnims_lookup, E. reflexivity.
  - apply cancelAnims_length.
  - unfold cancelAnims at 1. rewrite exec_bind.
    change (exec (getAnimations ele) w') with w'. rewrite G. reflexivity.
Qed.

(** ** The four shapes of a step *)

Lemma Shape_show w : Inv w -> Shape w (step CallShow w).
Proof.
  intros I. destruct (isOpen w) eqn:O.
  - rewrite step_rejected_show; [apply shape_same; reflexivity | apply I | exact O].
  - destruct (inv_phase w I) as (olds & Hq & Hi & [Ha Hp Hc | k du Ha Hp Ho Hc]);
      pose proof (inv_queue w I) as Hm;
      destruct w as [o c pf b kb ms st cl ae anims ps mt fr tr];
      cbn [animations promises isOpen isClosed microtasks] in *; subst.
    + rewrite step_show_rest by exact Hq.
      eapply (shape_started _ _ Entrance); first [exact Hq | reflexivity].
    + rewrite step_show_moving by exact Hq.
      eapply (shape_restarted _ _ olds k du _ Entrance);
        first [exact Hq | reflexivity].
Qed.

Lemma Shape_hide w : Inv w -> Shape w (step CallHide w).
Proof.
  intros I. destruct (isOpen w) eqn:O.
  - destruct (inv_phase w I) as (olds & Hq & Hi & [Ha Hp Hc | k du Ha Hp Ho Hc]);
      pose proof (inv_queue w I) as Hm;
      destruct w as [o c pf b kb ms st cl ae anims ps mt fr tr];
      cbn [animations promises isOpen isClosed microtasks] in *; subst.
    + rewrite step_hide_rest by exact Hq.
      eapply (shape_started _ _ Exit); first [exact Hq | reflexivity].
    + rewrite step_hide_moving by exact Hq.
      eapply (shape_restarted _ _ olds k du _ Exit);
        first [exact Hq | reflexivity].
  - rewrite step_rejected_hide; [apply shape_same; reflexivity | apply I | exact O].
Qed.

Lemma Shape_finish a w : Inv w -> Shape w (step (AnimationFinish a) w).
Proof.
  intros I.
  assert (D : (forall an, animations w !! a = Some an -> playState an <> Running) ->
              Shape w (step (AnimationFinish a) w)).
  { intros H. unfold step, task. rewrite finish_disabled by exact H.
    rewrite checkpoint_idle by apply I. apply shape_same. reflexivity. }
  destruct (inv_phase w I) as (olds & Hq & Hi & [Ha Hp Hc | k du Ha Hp Ho Hc]).
  - apply D. intros an E. rewrite Ha in E. exact (quiet_lookup _ _ _ Hq E).
  - destruct (decide (a = length olds)) as [->|Hne].
    + pose proof (inv_queue w I) as Hm. clear D.
      destruct w as [o c pf b kb ms st cl ae anims ps mt fr tr];
        cbn [animations promises isOpen isClosed microtasks] in *; subst.
      rewrite step_finish.
      eapply (shape_finished _ _ olds k du); first [exact Hq | reflexivity | idtac].
      cbn [isOpen isClosed]. destruct k; reflexivity.
    + apply D. intros an E. rewrite Ha in E.
      destruct (decide (a < length olds)) as [Hlt|Hge].
      * rewrite lookup_app_l in E by exact Hlt. exact (quiet_lookup _ _ _ Hq E).
      * apply lookup_lt_Some in E. rewrite length_app in E. simpl in E. lia.
Qed.

Lemma Shape_step l w : Inv w -> Shape w (step l w).
Proof.
  intros I.
  assert (Same : exec (task l) w = w -> Shape w (step l w)).
  { intros E. unfold step. rewrite E, checkpoint_idle by apply I.
    apply shape_same. reflexivity. }
  assert (Pas : passive l = true -> isFinish l = false -> Shape w (step l w)).
  { intros Hp Hf. apply shape_same.
    exact (passive_core l w (inv_queue w I) Hp Hf). }
  assert (Hide : exec (task l) w = exec (task CallHide) w -> Shape w (step l w)).
  { intros E. unfold step. rewrite E. apply Shape_hide, I. }
  destruct l.
  - apply Shape_show, I.
  - apply Shape_hide, I.
  - pose proof (task_toggle w) as T. destruct (isOpen w).
    + apply Hide, T.
    + unfold step. rewrite T. apply Shape_show, I.
  - destruct dismiss; [apply Hide; reflexivity | apply Pas; reflexivity].
  - pose proof (task_clickBackdrop w) as T.
    destruct (bool_decide _); [apply Hide, T | apply Same, T].
  - pose proof (task_keyDown key w) as T.
    destruct (_ && _); [apply Hide, T | apply Same, T].
  - apply Pas; reflexivity.
  - apply Pas; reflexivity.
  - apply Pas; reflexivity.
  - apply Pas; reflexivity.
  - apply Pas; reflexivity.
  - apply Shape_finish, I.
Qed.

(** ** Counting events *)









(** ** The events themselves *)

Lemma lifecycle_start k : lifecycleEvent (createEvent (startName k)).
Proof.
  split; [reflexivity|]. split; [reflexivity|].
  destruct k; cbn; repeat first [apply list_elem_of_here | apply list_elem_of_further].
Qed.

Lemma lifecycle_end k : lifecycleEvent (createEvent (endName k)).
Proof.
  split; [reflexivity|]. split; [reflexivity|].
  destruct k; cbn; repeat first [apply list_elem_of_here | apply list_elem_of_further].
Qed.

(** X8. Every event the element has dispatched on a reachable page was
    built by [createEvent]: it bubbles, it is cancelable, and its type
    is one of [show], [shown], [hide] and [hidden]. *)
Theorem X8_events (w : World) (ev : CustomEvent) :
  reachable w ->
  ObsDispatch ev ∈ trace w ->
  bubbles ev = true /\ cancelable ev = true
  /\ type ev ∈ ["show"; "shown"; "hide"; "hidden"].
Proof.
  intros R. revert ev.
  induction R as [|l w R IH]; intros ev H; [inversion H|].
  destruct (Shape_step l w (reachable_Inv w R))
    as [C | k du f Hq Ho Ho' Hc Ha Ht
        | olds k0 du0 f0 k du f Hq Ha0 Ho Ho' Hc Ha Ht
        | olds k du f p Hq Ha0 Ho' Hc Ha Ht].
  - unfold core in C. injection C as _ _ _ C _ _ _. rewrite C in H. exact (IH ev H).
  - rewrite Ht in H. apply elem_of_app in H as [H|H]; [exact (IH ev H)|].
    apply elem_of_cons in H as [H|H]; [injection H as ->; apply lifecycle_start|].
    inList H.
  - rewrite Ht in H. apply elem_of_app in H as [H|H]; [exact (IH ev H)|].
    apply elem_of_cons in H as [H|H]; [discriminate|].
    apply elem_of_cons in H as [H|H]; [injection H as ->; apply lifecycle_start|].
    inList H.
  - rewrite Ht in H. apply elem_of_app in H as [H|H]; [exact (IH ev H)|].
    apply elem_of_cons in H as [H|H]; [discriminate|].
    apply elem_of_cons in H as [H|H]; [discriminate|].
    apply elem_of_cons in H as [H|H]; [injection H as ->; apply lifecycle_end|].
    inList H.
Qed.

Lemma X8_witness :
  bubbles (createEvent "hide") = true /\ cancelable (createEvent "hide") = true
  /\ type (createEvent "hide") ∈ ["show"; "shown"; "hide"; "hidden"].
Proof.
  apply (X8_events closing (createEvent "hide")).
  - exact reachable_closing.
  - apply list_elem_of_In. vm_compute. tauto.
Defined.

(** ** [render] *)



(** ** From [show] to [shown] *)

Lemma show_from_closed w :
  Inv w -> isOpen w = false ->
  exists olds pre,
    quiet olds /\ length olds = length (animations w)
    /\ animations (step CallShow w)
       = olds ++ [mkAnimation Container Entrance (animMsec w) Running (length pre)]
    /\ promises (step CallShow w)
       = pre ++ runningBlock (length pre) (length olds) CbShown
    /\ microtasks (step CallShow w) = []
    /\ isOpen (step CallShow w) = true
    /\ isClosed (step CallShow w) = false
    /\ prevFocusElement (step CallShow w) = activeElement w.
Proof.
  intros I O.
  destruct (inv_phase w I) as (olds & Hq & Hi & [Ha Hp Hc | k du Ha Hp Ho Hc']);
    pose proof (inv_queue w I) as Hm;
    destruct w as [o c pf b kb ms st cl ae anims ps mt fr tr];
    cbn [animations promises isOpen isClosed microtasks animMsec
         prevFocusElement activeElement] in *; subst.
  - rewrite step_show_rest by exact Hq.
    exists olds, (store 0 olds).
    cbn [animations promises isOpen isClosed microtasks prevFocusElement].
    repeat (split; [first [assumption | reflexivity]|]). reflexivity.
  - rewrite step_show_moving by exact Hq.
    exists (olds ++ [mkAnimation Container k du Idle (length (store 0 olds))]),
           (store 0 olds ++ idleBlock (length (store 0 olds)) (continuation k)).
    cbn [animations promises isOpen isClosed microtasks prevFocusElement].
    split; [apply quiet_snoc; [exact Hq | discriminate]|].
    split; [rewrite !length_app; reflexivity|].
    split; [rewrite <- app_assoc, length_app; reflexivity|].
    split; [rewrite <- app_assoc, !length_app; reflexivity|].
    repeat (split; [reflexivity|]). reflexivity.
Qed.

Lemma shown_after w ls :
  Inv w -> isOpen w = false ->
  Forall (fun l => passive l = true /\ isFinish l = false) ls ->
  let a := length (animations w) in
  let w2 := run ls (step CallShow w) in
  let w3 := step (AnimationFinish a) w2 in
  isOpen w3 = true /\ isClosed w3 = false
  /\ activeElement w3 = activeElement w2
  /\ prevFocusElement w3 = activeElement w
  /\ exists p,
       trace w3 = trace w2 ++ [ObsCallback (CbResolve p a) (VAnimation a);
                               ObsCallback CbShown (VAnimation a);
                               ObsDispatch (createEvent "shown")].
Proof.
  intros I O Hls a w2 w3.
  destruct (show_from_closed w I O)
    as (olds & pre & Hq & Hl & Ha & Hp & Hm & Ho & Hc & Hf).
  pose proof (passive_run_core ls (step CallShow w) Hm Hls) as C.
  fold w2 in C. unfold core in C. rewrite Ha, Hp, Hm, Ho, Hc, Hf in C.
  injection C as Ca Cp Cm _ Co Cc Cf.
  unfold w3, a. rewrite <- Hl. clear w3.
  destruct w2 as [o c pf b kb ms st cl ae anims ps mt fr tr].
  cbn [animations promises isOpen isClosed microtasks prevFocusElement
       activeElement trace] in *. subst.
  rewrite (step_finish _ _ _ _ _ _ _ _ _ olds pre Entrance).
  cbn [isOpen isClosed activeElement prevFocusElement trace].
  split; [reflexivity|]. split; [reflexivity|]. split; [reflexivity|].
  split; [reflexivity|]. eexists. reflexivity.
Qed.



(** ** [show] during the exit animation *)

(** X12. On a reachable page whose exit animation is still running,
    [show] cancels that animation before the entrance animation
    starts.  Whatever runs afterwards, the cancelled animation stays
    cancelled, the promise [hideAnim] returned for it stays pending and
    its continuation never runs, so that [hide] call never sets
    [isClosed] nor restores the focus.  When the entrance animation
    then reaches its end, after any passive tasks, the modal is open
    and [shown] is the last thing observed. *)
Theorem X12_reopened (w : World) (a : nat) (an : Animation) (ls ls' : list Label) :
  reachable w ->
  animations w !! a = Some an ->
  keyframes an = Exit ->
  playState an = Running ->
  Forall (fun l => passive l = true /\ isFinish l = false) ls ->
  let w1 := step CallShow w in
  let w2 := run ls w1 in
  let w3 := step (AnimationFinish (S a)) w2 in
  let u := run ls' w1 in
  animations w1 !! a = Some (idle an)
  /\ trace w1 = trace w ++ [ObsCancel a;
                           ObsDispatch (createEvent "show");
                           ObsAnimate (S a) Entrance;
                           ObsCallback CbNoop VAbortError]
  /\ isOpen w3 = true
  /\ isClosed w3 = false
  /\ (exists p,
        trace w3 = trace w2 ++ [ObsCallback (CbResolve p (S a)) (VAnimation (S a));
                                ObsCallback CbShown (VAnimation (S a));
                                ObsDispatch (createEvent "shown")])
  /\ animations u !! a = Some (idle an)
  /\ (exists pr, promises u !! (finished an + 1) = Some pr
                 /\ settlement pr = Pending)
  /\ (ObsCallback CbHidden (VAnimation a) ∉ trace u).
Proof.
  intros R E K P Hls w1 w2 w3 u.
  pose proof (reachable_Inv w R) as I.
  destruct (Inv_one_running w a an I E P)
    as (olds & du & Hq & Hi & -> & Han & Ha & Hp & Ho & Hc).
  rewrite K in Ho, Hp. cbn in Ho.
  assert (La : length (animations w) = S (length olds)).
  { rewrite Ha, length_app. simpl. lia. }
  pose proof (shown_after w ls I Ho Hls) as H.
  cbv zeta in H. rewrite La in H. destruct H as (H1 & H2 & _ & _ & H4).
  assert (S1 : animations w1 !! length olds = Some (idle an)
               /\ trace w1 = trace w ++ [ObsCancel (length olds);
                                         ObsDispatch (createEvent "show");
                                         ObsAnimate (S (length olds)) Entrance;
                                         ObsCallback CbNoop VAbortError]).
  { unfold w1. rewrite Han in Ha. rewrite K in Ha.
    pose proof (inv_queue w I) as Hm. clear H1 H2 H4 w2 w3 u w1.
    destruct w as [o c pf b kb ms st cl ae anims ps mt fr tr];
      cbn [animations promises isOpen isClosed microtasks trace] in *; subst.
    change (bool_decide (Exit = Entrance)) with false.
    rewrite step_show_moving by exact Hq. cbn [animations trace].
    rewrite lookup_frame0, Han, K, Nat.add_1_r. split; reflexivity. }
  destruct S1 as [S1 S2].
  assert (Ru : reachable u).
  { apply reachable_run. constructor. exact R. }
  assert (Eu : animations u !! length olds = Some (idle an)).
  { apply run_keeps; [exact S1 | discriminate]. }
  split; [exact S1|]. split; [exact S2|]. split; [exact H1|].
  split; [exact H2|]. split; [exact H4|]. split; [exact Eu|]. split.
  - exact (idle_outer_pending u _ _ (reachable_Inv u Ru) Eu eq_refl).
  - intros Hc'. destruct (inv_callbacks u (reachable_Inv u Ru) _ _ Hc')
      as (an' & Ea & Pa).
    rewrite Eu in Ea. injection Ea as <-. discriminate.
Qed.

Lemma X12_witness :
  let w := closing in
  let an := mkAnimation Container Exit 300 Running 5 in
  let w1 := step CallShow w in
  let w2 := run [AnimationFrame] w1 in
  let w3 := step (AnimationFinish 2) w2 in
  let u := run [AnimationFinish 2; CallHide; AnimationFinish 3] w1 in
  animations w1 !! 1 = Some (idle an)
  /\ trace w1 = trace w ++ [ObsCancel 1;
                           ObsDispatch (createEvent "show");
                           ObsAnimate 2 Entrance;
                           ObsCallback CbNoop VAbortError]
  /\ isOpen w3 = true
  /\ isClosed w3 = false
  /\ (exists p,
        trace w3 = trace w2 ++ [ObsCallback (CbResolve p 2) (VAnimation 2);
                                ObsCallback CbShown (VAnimation 2);
                                ObsDispatch (createEvent "shown")])
  /\ animations u !! 1 = Some (idle an)
  /\ (exists pr, promises u !! (finished an + 1) = Some pr
                 /\ settlement pr = Pending)
  /\ (ObsCallback CbHidden (VAnimation 1) ∉ trace u).
Proof.
  apply (X12_reopened closing 1 (mkAnimation Container Exit 300 Running 5)
           [AnimationFrame] [AnimationFinish 2; CallHide; AnimationFinish 3]).
  - exact reachable_closing.
  - reflexivity.
  - reflexivity.
  - reflexivity.
  - repeat constructor.
Defined.

(** ** Attachment and detachment *)

Lemma lifecycles_snoc cs c h :
  lifecycles (cs ++ [c]) h = lifecycle c (lifecycles cs h).
Proof. unfold lifecycles. rewrite fold_left_app. reflexivity. Qed.

Lemma unsub_step (u : Listener) (us ls : list Listener) :
  filter (fun x => x ∉ us) (removeEventListener u ls)
  = filter (fun x => x ∉ u :: us) ls.
Proof.
  unfold removeEventListener. induction ls as [|x ls IH]; [reflexivity|].
  rewrite (filter_cons (fun x => x <> u)), (filter_cons (fun x => x ∉ u :: us)).
  destruct (decide (x <> u)) as [Hx|Hx].
  - rewrite filter_cons, IH.
    destruct (decide (x ∉ us)) as [H1|H1];
      destruct (decide (x ∉ u :: us)) as [H2|H2]; try reflexivity.
    + exfalso. apply H2. intros Hc. apply elem_of_cons in Hc as [Hc|Hc]; auto.
    + exfalso. apply H1. intros Hc. apply H2. apply elem_of_cons. auto.
  - rewrite IH. destruct (decide (x ∉ u :: us)) as [H2|H2]; [|reflexivity].
    exfalso. apply H2. apply elem_of_cons. left.
    destruct (decide (x = u)); [assumption | contradiction].
Qed.

Lemma unsub_all (us ls : list Listener) :
  fold_left (fun ls u => removeEventListener u ls) us ls
  = filter (fun x => x ∉ us) ls.
Proof.
  revert ls. induction us as [|u us IH]; intros ls; cbn [fold_left].
  - induction ls as [|x ls IHl]; [reflexivity|].
    rewrite filter_cons. destruct (decide (x ∉ [])) as [_|H].
    + f_equal. exact IHl.
    + exfalso. apply H. intros Hc. inversion Hc.
  - rewrite IH. apply unsub_step.
Qed.

Lemma filter_foreign_snoc_own ls l :
  own l = true ->
  filter (fun x => own x = false) (ls ++ [l])
  = filter (fun x => own x = false) ls.
Proof.
  intros H. rewrite filter_app, filter_cons.
  destruct (decide (own l = false)) as [Hc|_]; [congruence|].
  rewrite filter_nil, app_nil_r. reflexivity.
Qed.

Lemma add_fresh l ls : l ∉ ls -> addEventListener l ls = ls ++ [l].
Proof.
  intros H. unfold addEventListener.
  rewrite bool_decide_eq_false_2 by exact H. reflexivity.
Qed.

Lemma unsub_foreign (us ls : list Listener) :
  (forall l, l ∈ us -> own l = true) ->
  filter (fun x => own x = false) (filter (fun x => x ∉ us) ls)
  = filter (fun x => own x = false) ls.
Proof.
  intros Hus. induction ls as [|x ls IH]; [reflexivity|].
  rewrite (filter_cons (fun x => x ∉ us)),
          (filter_cons (fun x => own x = false) x ls).
  destruct (decide (x ∉ us)) as [Hx|Hx].
  - rewrite filter_cons. destruct (decide (own x = false)); [f_equal|]; exact IH.
  - rewrite IH. destruct (decide (own x = false)) as [Hf|_]; [|reflexivity].
    exfalso. apply Hx. intros Hin. specialize (Hus x Hin). congruence.
Qed.

Lemma unsub_own (us ls : list Listener) :
  (forall l, l ∈ us -> own l = true) ->
  (forall l, l ∈ ls -> own l = true -> l ∈ us) ->
  filter (fun x => x ∉ us) ls = filter (fun x => own x = false) ls.
Proof.
  intros Hus. induction ls as [|x ls IH]; intros Hls; [reflexivity|].
  rewrite !filter_cons.
  assert (IH' : filter (fun x => x ∉ us) ls
                = filter (fun x => own x = false) ls).
  { apply IH. intros l Hin. apply Hls. apply elem_of_cons. auto. }
  destruct (own x) eqn:Ox.
  - destruct (decide (x ∉ us)) as [Hx|_].
    + exfalso. apply Hx. apply Hls; [apply elem_of_cons; auto | exact Ox].
    + destruct (decide (true = false)); [discriminate | exact IH'].
  - destruct (decide (x ∉ us)) as [_|Hx].
    + destruct (decide (false = false)); [f_equal; exact IH' | contradiction].
    + exfalso. apply Hx. intros Hin. specialize (Hus x Hin). congruence.
Qed.

Lemma closures_own others h l :
  attached others h -> l ∈ _unsubFuncs h -> own l = true.
Proof.
  intros (_ & _ & J3) Hin. destruct (J3 l Hin) as (m & n & E & _).
  unfold own. rewrite E. reflexivity.
Qed.

(** What attaching does when the functions it binds are new. *)
Lemma connected_listeners others h :
  attached others h ->
  listeners (connectedCallback h)
  = listeners h ++
    [ mkListener HostElement "click" (Bound ClickMethod (nextFn h)) true;
      mkListener OwnerDocument "keydown" (Bound KeyMethod (S (nextFn h))) true;
      mkListener OwnerDocument "focusin"
        (Bound FocusinMethod (S (S (nextFn h)))) true ].
Proof.
  intros (_ & J2 & J3). cbn [connectedCallback listeners].
  assert (F : forall m n, nextFn h <= n ->
              forall t ty c, mkListener t ty (Bound m n) c ∉ listeners h).
  { intros m n Hn t ty c Hin.
    destruct (J3 _ (J2 _ Hin eq_refl)) as (m' & n' & E & Hlt).
    cbn in E. injection E as _ <-. lia. }
  rewrite (add_fresh _ (listeners h)) by (apply F; lia).
  rewrite (add_fresh _ (listeners h ++ [_])).
  2:{ intros Hin. apply elem_of_app in Hin as [Hin|Hin].
      - revert Hin. apply F. lia.
      - inList Hin. }
  rewrite add_fresh.
  2:{ intros Hin. apply elem_of_app in Hin as [Hin|Hin].
      - apply elem_of_app in Hin as [Hin|Hin].
        + revert Hin. apply F. lia.
        + inList Hin.
      - inList Hin. }
  rewrite <- !app_assoc. reflexivity.
Qed.

Lemma attached_unwired others :
  Forall (fun l => own l = false) others -> attached others (unwired others).
Proof.
  intros H. split; [|split].
  - cbn. induction H as [|x l Hx H IH]; [reflexivity|].
    rewrite filter_cons. destruct (decide (own x = false)); [|contradiction].
    f_equal. exact IH.
  - cbn. intros l Hin Ho. rewrite Forall_forall in H.
    specialize (H l Hin). congruence.
  - cbn. intros l Hin. inversion Hin.
Qed.

Lemma attached_lifecycle others c h :
  attached others h -> attached others (lifecycle c h).
Proof.
  intros J. pose proof J as (J1 & J2 & J3). destruct c; cbn [lifecycle].
  - split; [|split].
    + rewrite (connected_listeners others h J).
      rewrite filter_app, J1.
      exact (app_nil_r _).
    + intros l Hin Ho. rewrite (connected_listeners others h J) in Hin.
      cbn [connectedCallback _unsubFuncs].
      apply elem_of_app in Hin as [Hin|Hin]; apply elem_of_app;
        [left; exact (J2 l Hin Ho) | right; exact Hin].
    + intros l Hin. cbn [connectedCallback _unsubFuncs nextFn] in *.
      apply elem_of_app in Hin as [Hin|Hin].
      * destruct (J3 l Hin) as (m & n & E & Hlt). exists m, n. split; [exact E | lia].
      * apply elem_of_cons in Hin as [->|Hin]; [eexists _, _; split; [reflexivity | lia]|].
        apply elem_of_cons in Hin as [->|Hin]; [eexists _, _; split; [reflexivity | lia]|].
        apply elem_of_cons in Hin as [->|Hin]; [eexists _, _; split; [reflexivity | lia]|].
        inversion Hin.
  - unfold attached. cbn [disconnectedCallback listeners _unsubFuncs nextFn].
    rewrite unsub_all. split; [|split].
    + rewrite <- J1. apply unsub_foreign.
      intros l Hin. exact (closures_own others h l J Hin).
    + intros l Hin Ho. apply list_elem_of_filter in Hin as [_ Hin]. exact (J2 l Hin Ho).
    + exact J3.
Qed.

Lemma attached_lifecycles others cs :
  Forall (fun l => own l = false) others ->
  attached others (lifecycles cs (unwired others)).
Proof.
  intros H. induction cs as [|c cs IH] using rev_ind.
  - apply attached_unwired, H.
  - rewrite lifecycles_snoc. apply attached_lifecycle, IH.
Qed.

Lemma detached_listeners others h :
  attached others h -> listeners (disconnectedCallback h) = others.
Proof.
  intros J. pose proof J as (J1 & J2 & J3).
  cbn [disconnectedCallback listeners].
  rewrite unsub_all, <- J1. apply unsub_own; [|exact J2].
  intros l Hin. exact (closures_own others h l J Hin).
Qed.

Lemma invoked_foreign tgt ty (ls : list Listener) :
  Forall (fun l => own l = false) ls ->
  omap (fun l =>
          match callback l with
          | Bound m _ =>
              if bool_decide (onTarget l = tgt) && bool_decide (eventType l = ty)
              then Some m else None
          | Foreign _ => None
          end) ls = [].
Proof.
  induction 1 as [|x ls Hx _ IH]; [reflexivity|].
  cbn [omap list_omap]. unfold own in Hx.
  destruct (callback x); [discriminate | exact IH].
Qed.

(** X13. Detaching the element, after any sequence of attachments and
    detachments, leaves on the page exactly the listeners of other code,
    in their order, so that no event reaches a handler of the element
    any more; the array of unsubscribe closures is left as it was. *)
Theorem X13_detached (others : list Listener) (cs : list Lifecycle)
    (tgt : EventTarget) (ty : string) :
  Forall (fun l => own l = false) others ->
  let h := lifecycles cs (unwired others) in
  listeners (disconnectedCallback h) = others
  /\ invoked tgt ty (disconnectedCallback h) = []
  /\ _unsubFuncs (disconnectedCallback h) = _unsubFuncs h
  /\ tabindex (disconnectedCallback h) = tabindex h.
Proof.
  intros Ho h.
  assert (L : listeners (disconnectedCallback h) = others)
    by exact (detached_listeners others h (attached_lifecycles others cs Ho)).
  split; [exact L|]. split; [|split; reflexivity].
  unfold invoked. rewrite L. apply invoked_foreign, Ho.
Qed.

Lemma X13_witness :
  listeners (disconnectedCallback (lifecycles moved (unwired otherListeners)))
  = otherListeners
  /\ invoked OwnerDocument "keydown"
       (disconnectedCallback (lifecycles moved (unwired otherListeners))) = []
  /\ _unsubFuncs (disconnectedCallback (lifecycles moved (unwired otherListeners)))
     = _unsubFuncs (lifecycles moved (unwired otherListeners))
  /\ tabindex (disconnectedCallback (lifecycles moved (unwired otherListeners)))
     = tabindex (lifecycles moved (unwired otherListeners)).
Proof.
  apply (X13_detached otherListeners moved OwnerDocument "keydown").
  repeat constructor.
Defined.



Lemma closures_lifecycle c h :
  length (_unsubFuncs (lifecycle c h))
  = length (_unsubFuncs h) + (if bool_decide (c = Connect) then 3 else 0)
  /\ nextFn (lifecycle c h)
     = nextFn h + (if bool_decide (c = Connect) then 3 else 0).
Proof.
  destruct c; cbn [lifecycle connectedCallback disconnectedCallback
                   _unsubFuncs nextFn].
  - rewrite length_app, bool_decide_eq_true_2 by reflexivity.
    cbn [length]. split; lia.
  - rewrite bool_decide_eq_false_2 by discriminate. split; lia.
Qed.

(** X15. The array of unsubscribe closures is never emptied: after any
    sequence of attachments and detachments it holds three closures for
    every attachment there has been, all of which a detachment runs. *)
Theorem X15_closures_kept (others : list Listener) (cs : list Lifecycle) :
  length (_unsubFuncs (lifecycles cs (unwired others)))
  = 3 * length (filter (fun c => c = Connect) cs)
  /\ nextFn (lifecycles cs (unwired others))
     = 3 * length (filter (fun c => c = Connect) cs).
Proof.
  induction cs as [|c cs IH] using rev_ind; [split; reflexivity|].
  rewrite lifecycles_snoc, filter_app, length_app.
  destruct (closures_lifecycle c (lifecycles cs (unwired others))) as [E1 E2].
  rewrite E1, E2. destruct IH as [-> ->].
  rewrite filter_cons, filter_nil.
  destruct c.
  - rewrite bool_decide_eq_true_2 by reflexivity.
    destruct (decide (Connect = Connect)); [|contradiction]. cbn [length]. split; lia.
  - rewrite bool_decide_eq_false_2 by discriminate.
    destruct (decide (Disconnect = Connect)); [discriminate|]. cbn [length]. split; lia.
Qed.

(** ** The animations of the container *)



Lemma step_setAnimMsec n w :
  microtasks w = [] -> step (SetAnimMsec n) w = set_animMsec n w.
Proof.
  intros H. unfold step, task. rewrite exec_modify.
  apply checkpoint_idle. exact H.
Qed.

Lemma step_toggle w :
  step CallToggle w = if isOpen w then step CallHide w else step CallShow w.
Proof. unfold step. rewrite task_toggle. destruct (isOpen w); reflexivity. Qed.

(** X17. The animation that [toggle] starts lasts as long as [animMsec]
    says at the time of the call: it is the only animation added, it
    runs on the container, as the exit when the element was open and as
    the entrance otherwise.  Setting [animMsec] afterwards changes no
    animation. *)
Theorem X17_duration (w : World) (n : N) :
  reachable w ->
  let w' := step CallToggle (step (SetAnimMsec n) w) in
  animations w' !! length (animations w)
  = Some (mkAnimation Container (if isOpen w then Exit else Entrance) n
            Running (length (promises w)))
  /\ length (animations w') = S (length (animations w))
  /\ forall m, animations (step (SetAnimMsec m) w') = animations w'.
Proof.
  intros R. cbv zeta. pose proof (reachable_Inv w R) as I.
  rewrite (step_setAnimMsec n w) by apply I.
  destruct (inv_phase w I) as (olds & Hq & Hi & [Ha Hp Hc | k du Ha Hp Ho Hc]);
    pose proof (inv_queue w I) as Hm;
    destruct w as [o c pf b kb ms st cl ae anims ps mt fr tr];
    cbn [animations promises isOpen isClosed microtasks] in *; subst;
    unfold set_animMsec;
    cbn [isOpen isClosed prevFocusElement backdrop keyboard
         scrollTop classList activeElement animations promises microtasks
         frameRequests trace];
    rewrite step_toggle; cbn [isOpen].
  - destruct o; cbv iota.
    + rewrite step_hide_rest by exact Hq. cbn [animations].
      split; [|split].
      * rewrite lookup_app_r, Nat.sub_diag by lia. reflexivity.
      * rewrite length_app. cbn [length]. lia.
      * intros m. rewrite step_setAnimMsec by reflexivity. reflexivity.
    + rewrite step_show_rest by exact Hq. cbn [animations].
      split; [|split].
      * rewrite lookup_app_r, Nat.sub_diag by lia. reflexivity.
      * rewrite length_app. cbn [length]. lia.
      * intros m. rewrite step_setAnimMsec by reflexivity. reflexivity.
  - destruct k.
    + change (bool_decide (Entrance = Entrance)) with true. cbv iota.
      rewrite step_hide_moving by exact Hq. cbn [animations].
      split; [|split].
      * rewrite !length_app. cbn [length].
        rewrite lookup_app_r by lia.
        replace (length olds + 1 - length olds) with 1 by lia.
        cbn. first [reflexivity | repeat f_equal; lia].
      * rewrite !length_app. cbn [length]. lia.
      * intros m. rewrite step_setAnimMsec by reflexivity. reflexivity.
    + change (bool_decide (Exit = Entrance)) with false. cbv iota.
      rewrite step_show_moving by exact Hq. cbn [animations].
      split; [|split].
      * rewrite !length_app. cbn [length].
        rewrite lookup_app_r by lia.
        replace (length olds + 1 - length olds) with 1 by lia.
        cbn. first [reflexivity | repeat f_equal; lia].
      * rewrite !length_app. cbn [length]. lia.
      * intros m. rewrite step_setAnimMsec by reflexivity. reflexivity.
Qed.

Lemma X17_witness :
  animations (step CallToggle (step (SetAnimMsec 150) closing))
    !! length (animations closing)
  = Some (mkAnimation Container (if isOpen closing then Exit else Entrance) 150
            Running (length (promises closing)))
  /\ length (animations (step CallToggle (step (SetAnimMsec 150) closing)))
     = S (length (animations closing))
  /\ forall m,
       animations (step (SetAnimMsec m)
                     (step CallToggle (step (SetAnimMsec 150) closing)))
       = animations (step CallToggle (step (SetAnimMsec 150) closing)).
Proof. apply (X17_duration closing 150), reachable_closing. Defined.
